(** * rjobs: job lifecycle, adapters, dispatcher, configuration and workers

    A shallow embedding of the job engine of the rjobs package
    (base-job.js, adapters/inline-adapter.js, adapters/redis-adapter.js,
    adapters/index.js, config.js, worker.js and loader.js).

    Conventions of the embedding:
    - an [async] function is a computation in the monad [M S], state
      passing with a thrown value as the failing outcome; [await] is
      sequencing;
    - a JavaScript [Map] keyed by strings is a [gmap string _]; an object
      used as a bag of options is a [gmap string Value];
    - class objects live in a store ([classes]) and are named by their
      index, so that deriving a class or writing one of its static fields
      is visible as a change of the store; a class reads the static field
      [_filePath] of the class it extends until it has one of its own, so
      a write of the field on a class reaches the classes that read it
      from there;
    - the lifecycle hooks of a job class are functions of the job instance
      ([this]): they may read and assign its fields, return a value or
      throw one; the array of arguments of the running [performNow],
      which [this.arguments] refers to until it is assigned again, counts
      as part of the instance.  What user code does outside its own
      instance, a hook that defines or removes a hook on the instance, and
      console output, are outside the model;
    - numbers that the code treats as milliseconds or counts are in [Z]. *)

From stdpp Require Import base option numbers list strings gmap pretty.

Set Warnings "-register-all".
Local Open Scope Z_scope.
Local Open Scope string_scope.
Local Open Scope list_scope.

(** ** JavaScript values *)

Inductive Value : Type :=
  | VUndefined
  | VNull
  | VBool (b : bool)
  | VNum (n : Z)
  | VStr (s : string)
  | VArr (items : list Value)
  | VObj (props : list (string * Value))
  | VError (message : string).

(** Template-literal conversion [`${v}`]. *)
Fixpoint ToString (v : Value) : string :=
  match v with
  | VUndefined => "undefined"
  | VNull => "null"
  | VBool true => "true"
  | VBool false => "false"
  | VNum n => pretty n
  | VStr s => s
  | VArr items =>
      String.concat ","
        (map (fun item => match item with
                          | VUndefined | VNull => EmptyString
                          | _ => ToString item
                          end) items)
  | VObj _ => "[object Object]"
  | VError message =>
      if decide (message = EmptyString) then "Error" else "Error: " +:+ message
  end.

(** [a ?? b] on a field that is either a value or null/undefined. *)
Definition nullish {A} (a : option A) (b : A) : A :=
  match a with Some x => x | None => b end.

(** [s || d] on a string: the empty string is falsy. *)
Definition or_string (s d : string) : string :=
  if decide (s = "") then d else s.

(** [p || null] on a path that is a string or null. *)
Definition or_null (p : option string) : option string :=
  match p with
  | Some s => if decide (s = "") then None else Some s
  | None => None
  end.

(** ** Computations: state, and a thrown value *)

Inductive outcome (A : Type) : Type :=
  | Returned (a : A)
  | Thrown (error : Value).
Arguments Returned {A} a.
Arguments Thrown {A} error.

Definition M (S A : Type) : Type := S -> S * outcome A.

Definition ret {S A} (a : A) : M S A := fun s => (s, Returned a).

Definition throw {S A} (error : Value) : M S A := fun s => (s, Thrown error).

Definition bind {S A B} (m : M S A) (k : A -> M S B) : M S B :=
  fun s =>
    match m s with
    | (s', Returned a) => k a s'
    | (s', Thrown error) => (s', Thrown error)
    end.

(** [try { body } catch (error) { handler }]: what the body did to the
    state before it threw stays done. *)
Definition try_catch {S A} (body : M S A) (handler : Value -> M S A) : M S A :=
  fun s =>
    match body s with
    | (s', Returned a) => (s', Returned a)
    | (s', Thrown error) => handler error s'
    end.

Definition gets {S A} (f : S -> A) : M S A := fun s => (s, Returned (f s)).

Definition modify {S} (f : S -> S) : M S unit := fun s => (f s, Returned tt).

Declare Scope js_scope.
Delimit Scope js_scope with js.
Notation "x <- m ;; k" := (bind m (fun x => k))
  (at level 100, m at next level, right associativity) : js_scope.
Notation "m ;;; k" := (bind m (fun _ => k))
  (at level 100, right associativity) : js_scope.
Local Open Scope js_scope.

(** ** base-job.js: job instances and job classes *)

(** What [this.arguments] refers to: the array of arguments of the
    running [performNow] (its rest parameter [args]), or another array. *)
Inductive ArgumentsField : Type :=
  | RestArray
  | OtherArray (items : list Value).

(** A job instance: the instance fields of [BaseJob], whatever fields a
    subclass keeps on [this], and in [rest] what the array of arguments of
    the running [performNow] holds. *)
Record Job : Type := {
  arguments : ArgumentsField;
  rest : list Value;
  attemptNumber : Z;
  jobId : option string;
  fields : gmap string Value
}.

(** [new JobClass()]: [arguments = []], no call running. *)
Definition new_job : Job :=
  {| arguments := OtherArray []; rest := [];
     attemptNumber := 1; jobId := None; fields := ∅ |}.

(** [this.arguments = args], [args] being the array of the call. *)
Definition set_arguments (args : list Value) (j : Job) : Job :=
  {| arguments := RestArray; rest := args; attemptNumber := attemptNumber j;
     jobId := jobId j; fields := fields j |}.

(** What a method reads as [this.arguments]. *)
Definition this_arguments (j : Job) : list Value :=
  match arguments j with
  | RestArray => rest j
  | OtherArray items => items
  end.

Arguments set_arguments : simpl never.

(** A method of a job: it runs on the instance and returns or throws. *)
Definition Method : Type := Job -> Job * outcome Value.

(** A job class: the class of the store it extends ([None] when its
    superclass, [BaseJob] itself for one, is not in the store), the values
    its static fields read, own or inherited, whether [_filePath] is an own
    field of the class, and the methods its instances see.  An optional
    hook is [None] when [typeof this.hook] is not ['function']. *)
Record JobClass : Type := {
  extends : option nat;
  name : string;
  queue : string;
  retryAttempts : option Z;
  backoffDelay : option Z;
  _filePath : option string;
  own_filePath : bool;
  perform : list Value -> Method;
  beforePerform : option Method;
  afterPerform : option (Value -> Method);
  onError : option (Value -> Method)
}.

(** What [performNow] is observed to call, in order; [Timer] is the
    [setTimeout] wait of the inline adapter. *)
Inductive Event : Type :=
  | CallBeforePerform
  | CallPerform (args : list Value)
  | CallAfterPerform (result : Value)
  | CallOnError (error : Value)
  | Timer (ms : Z).

(** One run of [performNow]: the instance and the calls made so far. *)
Record Run : Type := {
  this : Job;
  calls : list Event
}.

Definition start_run (j : Job) : Run := {| this := j; calls := [] |}.

(** [await this.m(...)], recorded as the event [ev]. *)
Definition call (ev : Event) (m : Method) : M Run Value :=
  fun r =>
    let '(j, o) := m (this r) in
    ({| this := j; calls := calls r ++ [ev] |}, o).

Definition assign_arguments (args : list Value) : M Run unit :=
  modify (fun r => {| this := set_arguments args (this r); calls := calls r |}).

(** The hook when it is a function, nothing otherwise. *)
Definition call_if_defined (ev : Event) (hook : option Method) : M Run Value :=
  match hook with
  | Some m => call ev m
  | None => ret VUndefined
  end.

Module BaseJob.

(** The abstract [perform] of the base class, as an instance of the
    class named [class_name] sees it ([this.constructor.name]). *)
Definition abstract_perform (class_name : string) (args : list Value) : Method :=
  fun j => (j, Thrown (VError (class_name +:+ " must implement the perform() method"))).

(** [class BaseJob]: queue ['default'], no retry settings, no hooks. *)
Definition class : JobClass :=
  {| extends := None; name := "BaseJob"; queue := "default";
     retryAttempts := None; backoffDelay := None;
     _filePath := None; own_filePath := true;
     perform := abstract_perform "BaseJob";
     beforePerform := None; afterPerform := None; onError := None |}.

(** [async performNow(...args)] on an instance of class [C].  The call
    [this.perform(...args)] spreads the array [args] as it is when the
    call is made, after [beforePerform]. *)
Definition performNow (C : JobClass) (args : list Value) : M Run Value :=
  assign_arguments args ;;;
  try_catch
    (call_if_defined CallBeforePerform (beforePerform C) ;;;
     spread <- gets (fun r => rest (this r)) ;;
     result <- call (CallPerform spread) (perform C spread) ;;
     call_if_defined (CallAfterPerform result)
                     (option_map (fun h => h result) (afterPerform C)) ;;;
     ret result)
    (fun error =>
       call_if_defined (CallOnError error)
                       (option_map (fun h => h error) (onError C)) ;;;
       throw error).

End BaseJob.

(** ** config.js *)

Definition ADAPTER_TYPES : list (string * string) :=
  [("INLINE", "inline"); ("REDIS", "redis")].

Record Config : Type := {
  queueAdapter : string;
  redis : gmap string Value;
  defaultRetryAttempts : Z;
  defaultBackoffDelay : Z
}.

Definition defaultConfig : Config :=
  {| queueAdapter := "inline";
     redis := <["host" := VStr "localhost"]> (<["port" := VNum 6379]> ∅);
     defaultRetryAttempts := 3;
     defaultBackoffDelay := 1000 |}.

(** [Object.values(obj)] of an object literal. *)
Definition Object_values {A} (obj : list (string * A)) : list A := map snd obj.

(** [strings.includes(v)]: SameValueZero of [v] against strings, which
    only a string with the same characters satisfies. *)
Definition includes (strings : list string) (v : Value) : bool :=
  match v with
  | VStr s => bool_decide (s ∈ strings)
  | _ => false
  end.

(** ** The BullMQ side: queues, submissions and workers *)

Record Connection : Type := {
  host : Value;
  port : Value;
  password : Value
}.

(** A [Queue] handle: the name it was opened for and the connection
    settings it was opened with. *)
Record Queue : Type := {
  queue_name : string;
  queue_connection : Connection
}.

(** The payload written to the broker. *)
Record JobData : Type := {
  jobClassName : string;
  jobClassPath : option string;
  data_args : list Value
}.

Record Backoff : Type := {
  backoff_type : string;
  backoff_delay : Z
}.

(** The options object passed to [queue.add]. *)
Record JobsOptions : Type := {
  opts_delay : Z;
  opts_attempts : Z;
  opts_backoff : Backoff;
  removeOnComplete : bool;
  removeOnFail : bool
}.

(** One call [queue.add(name, data, opts)]. *)
Record Submission : Type := {
  to_queue : Queue;
  job_name : string;
  data : JobData;
  opts : JobsOptions
}.

(** A [Worker] object: [worker_id] tells apart two workers constructed
    with the same settings. *)
Record Worker : Type := {
  worker_id : nat;
  worker_queue : string;
  worker_connection : Connection;
  worker_concurrency : Z
}.

(** What the broker client has been asked to do, and whether the broker
    answers. *)
Record Broker : Type := {
  reachable : bool;
  next_id : nat;
  add_calls : list Submission;
  constructed : list Worker
}.

(** ** The process: module-level state of all the modules *)

Record World : Type := {
  currentConfig : Config;             (* config.js *)
  inlineAdapter : bool;               (* adapters/index.js, instance cached? *)
  redisAdapter : bool;
  queues : gmap string Queue;         (* adapters/redis-adapter.js *)
  broker : Broker;
  classes : list JobClass;            (* the class objects *)
  jobRegistry : gmap string nat;      (* worker.js *)
  workers : gmap string Worker;
  now : Z;                            (* Date.now() *)
  log : list Event                    (* calls made on job instances, timers *)
}.

Definition with_config (f : Config -> Config) (w : World) : World :=
  {| currentConfig := f (currentConfig w);
     inlineAdapter := inlineAdapter w; redisAdapter := redisAdapter w;
     queues := queues w; broker := broker w; classes := classes w;
     jobRegistry := jobRegistry w; workers := workers w;
     now := now w; log := log w |}.

Definition with_adapters (i r : bool) (w : World) : World :=
  {| currentConfig := currentConfig w;
     inlineAdapter := i; redisAdapter := r;
     queues := queues w; broker := broker w; classes := classes w;
     jobRegistry := jobRegistry w; workers := workers w;
     now := now w; log := log w |}.

Definition with_queues (f : gmap string Queue -> gmap string Queue) (w : World) : World :=
  {| currentConfig := currentConfig w;
     inlineAdapter := inlineAdapter w; redisAdapter := redisAdapter w;
     queues := f (queues w); broker := broker w; classes := classes w;
     jobRegistry := jobRegistry w; workers := workers w;
     now := now w; log := log w |}.

Definition with_broker (f : Broker -> Broker) (w : World) : World :=
  {| currentConfig := currentConfig w;
     inlineAdapter := inlineAdapter w; redisAdapter := redisAdapter w;
     queues := queues w; broker := f (broker w); classes := classes w;
     jobRegistry := jobRegistry w; workers := workers w;
     now := now w; log := log w |}.

Definition with_classes (f : list JobClass -> list JobClass) (w : World) : World :=
  {| currentConfig := currentConfig w;
     inlineAdapter := inlineAdapter w; redisAdapter := redisAdapter w;
     queues := queues w; broker := broker w; classes := f (classes w);
     jobRegistry := jobRegistry w; workers := workers w;
     now := now w; log := log w |}.

Definition with_jobRegistry (f : gmap string nat -> gmap string nat) (w : World) : World :=
  {| currentConfig := currentConfig w;
     inlineAdapter := inlineAdapter w; redisAdapter := redisAdapter w;
     queues := queues w; broker := broker w; classes := classes w;
     jobRegistry := f (jobRegistry w); workers := workers w;
     now := now w; log := log w |}.

Definition with_workers (f : gmap string Worker -> gmap string Worker) (w : World) : World :=
  {| currentConfig := currentConfig w;
     inlineAdapter := inlineAdapter w; redisAdapter := redisAdapter w;
     queues := queues w; broker := broker w; classes := classes w;
     jobRegistry := jobRegistry w; workers := f (workers w);
     now := now w; log := log w |}.

Definition with_now (f : Z -> Z) (w : World) : World :=
  {| currentConfig := currentConfig w;
     inlineAdapter := inlineAdapter w; redisAdapter := redisAdapter w;
     queues := queues w; broker := broker w; classes := classes w;
     jobRegistry := jobRegistry w; workers := workers w;
     now := f (now w); log := log w |}.

Definition with_log (f : list Event -> list Event) (w : World) : World :=
  {| currentConfig := currentConfig w;
     inlineAdapter := inlineAdapter w; redisAdapter := redisAdapter w;
     queues := queues w; broker := broker w; classes := classes w;
     jobRegistry := jobRegistry w; workers := workers w;
     now := now w; log := f (log w) |}.

(** A process that has just loaded the modules, with the given class
    objects defined. *)
Definition fresh_world (cs : list JobClass) (time : Z) : World :=
  {| currentConfig := defaultConfig;
     inlineAdapter := false; redisAdapter := false;
     queues := ∅;
     broker := {| reachable := true; next_id := 1; add_calls := []; constructed := [] |};
     classes := cs;
     jobRegistry := ∅; workers := ∅;
     now := time; log := [] |}.

(** *** The [config] object: accessors of [currentConfig] *)

Module config.

(** [set queueAdapter(adapter)]. *)
Definition set_queueAdapter (adapter : Value) : M World unit :=
  if includes (Object_values ADAPTER_TYPES) adapter then
    modify (with_config (fun c =>
      {| queueAdapter := ToString adapter; redis := redis c;
         defaultRetryAttempts := defaultRetryAttempts c;
         defaultBackoffDelay := defaultBackoffDelay c |}))
  else
    throw (VError ("Unknown adapter: " +:+ ToString adapter +:+ ". Valid options: "
                   +:+ String.concat ", " (Object_values ADAPTER_TYPES))).

(** [set redis(options)]: [{ ...currentConfig.redis, ...options }]; the
    union of maps keeps the left value on a shared key. *)
Definition set_redis (options : gmap string Value) : M World unit :=
  modify (with_config (fun c =>
    {| queueAdapter := queueAdapter c; redis := options ∪ redis c;
       defaultRetryAttempts := defaultRetryAttempts c;
       defaultBackoffDelay := defaultBackoffDelay c |})).

Definition set_defaultRetryAttempts (attempts : Z) : M World unit :=
  modify (with_config (fun c =>
    {| queueAdapter := queueAdapter c; redis := redis c;
       defaultRetryAttempts := attempts;
       defaultBackoffDelay := defaultBackoffDelay c |})).

Definition set_defaultBackoffDelay (delay : Z) : M World unit :=
  modify (with_config (fun c =>
    {| queueAdapter := queueAdapter c; redis := redis c;
       defaultRetryAttempts := defaultRetryAttempts c;
       defaultBackoffDelay := delay |})).

Definition reset : M World unit :=
  modify (with_config (fun _ => defaultConfig)).

(** [config.redis.host] and the like: [undefined] for an absent field. *)
Definition redis_field (field : string) (w : World) : Value :=
  default VUndefined (redis (currentConfig w) !! field).

Definition connection (w : World) : Connection :=
  {| host := redis_field "host" w;
     port := redis_field "port" w;
     password := redis_field "password" w |}.

End config.

(** ** Class objects *)

(** A class object is named by its place in the store.  A name handed
    out by [define_class] always has a class behind it; the other case
    of [class_of] only makes the function total. *)
Definition class_of (c : nat) : M World JobClass :=
  fun w =>
    match classes w !! c with
    | Some C => (w, Returned C)
    | None => (w, Thrown (VError "not a class"))
    end.

(** Evaluating a [class ... { }] expression: a new class object. *)
Definition define_class (C : JobClass) : M World nat :=
  fun w => (with_classes (fun cs => cs ++ [C]) w, Returned (length (classes w))).

(** [const job = new JobClass(); return job.performNow(...args)], with
    [prepare] standing for the assignments made to [job] in between. *)
Definition perform_on_new (C : JobClass) (prepare : Job -> Job) (args : list Value)
  : M World Value :=
  fun w =>
    let '(r, o) := BaseJob.performNow C args (start_run (prepare new_job)) in
    (with_log (fun l => l ++ calls r) w, o).

(** ** adapters/inline-adapter.js and adapters/redis-adapter.js *)

(** The options object handed to [enqueue]; [None] is an absent field. *)
Record EnqueueOptions : Type := {
  args : option (list Value);
  delay : option Z;
  attempts : option Z;
  backoff : option Z
}.

(** The time a timer of Node waits: a delay below 1 or above
    2147483647 is set to 1. *)
Definition timer_delay (ms : Z) : Z :=
  if decide (1 <= ms <= 2147483647) then ms else 1.

(** [await new Promise(resolve => setTimeout(resolve, ms))]. *)
Definition setTimeout (ms : Z) : M World unit :=
  modify (fun w => with_log (fun l => l ++ [Timer ms])
                     (with_now (fun t => t + timer_delay ms) w)).

Module InlineAdapter.

Definition enqueue (JobClass : JobClass) (options : EnqueueOptions) : M World Value :=
  let args := default [] (args options) in
  let delay := default 0 (delay options) in
  (if bool_decide (delay > 0) then setTimeout delay else ret tt) ;;;
  perform_on_new JobClass id args.

Definition close : M World unit := ret tt.

End InlineAdapter.

(** [getQueue(queueName)]: the cached handle, or a new one opened with the
    connection settings of the moment. *)
Definition getQueue (queueName : string) : M World Queue :=
  fun w =>
    match queues w !! queueName with
    | Some q => (w, Returned q)
    | None =>
        let q := {| queue_name := queueName; queue_connection := config.connection w |} in
        (with_queues (insert queueName q) w, Returned q)
    end.

(** [await queue.add(name, data, opts)]: the call reaches the broker
    client; the broker assigns an id, or cannot be reached. *)
Definition Queue_add (q : Queue) (name : string) (d : JobData) (o : JobsOptions)
  : M World Value :=
  fun w =>
    let b := broker w in
    let s := {| to_queue := q; job_name := name; data := d; opts := o |} in
    if reachable b then
      (with_broker (fun b =>
         {| reachable := reachable b; next_id := S (next_id b);
            add_calls := add_calls b ++ [s]; constructed := constructed b |}) w,
       Returned (VObj [("id", VStr (pretty (next_id b))); ("name", VStr name)]))
    else
      (with_broker (fun b =>
         {| reachable := reachable b; next_id := next_id b;
            add_calls := add_calls b ++ [s]; constructed := constructed b |}) w,
       Thrown (VError "connect ECONNREFUSED")).

Module RedisAdapter.

Definition enqueue (JobClass : JobClass) (options : EnqueueOptions) : M World Value :=
  config <- gets currentConfig ;;
  let args := default [] (args options) in
  let delay := default 0 (delay options) in
  let attempts := default (defaultRetryAttempts config) (attempts options) in
  let backoff := default (defaultBackoffDelay config) (backoff options) in
  let queueName := or_string (queue JobClass) "default" in
  queue <- getQueue queueName ;;
  let jobData :=
    {| jobClassName := name JobClass;
       jobClassPath := or_null (_filePath JobClass);
       data_args := args |} in
  job <- Queue_add queue (name JobClass) jobData
           {| opts_delay := delay;
              opts_attempts := attempts;
              opts_backoff := {| backoff_type := "fixed"; backoff_delay := backoff |};
              removeOnComplete := true;
              removeOnFail := false |} ;;
  ret job.

(** Closes every cached queue and empties the cache; closing a queue
    is taken to succeed. *)
Definition close : M World unit := modify (with_queues (fun _ => ∅)).

End RedisAdapter.

(** ** adapters/index.js *)

Inductive Adapter : Type := Inline | Redis.

Definition getAdapter : M World Adapter :=
  kind <- gets (fun w => queueAdapter (currentConfig w)) ;;
  if decide (kind = "inline") then
    modify (fun w => with_adapters true (redisAdapter w) w) ;;;
    ret Inline
  else if decide (kind = "redis") then
    modify (fun w => with_adapters (inlineAdapter w) true w) ;;;
    ret Redis
  else
    throw (VError ("Unknown adapter type: " +:+ kind)).

(** [adapter.enqueue(JobClass, options)]. *)
Definition Adapter_enqueue (adapter : Adapter) : JobClass -> EnqueueOptions -> M World Value :=
  match adapter with
  | Inline => InlineAdapter.enqueue
  | Redis => RedisAdapter.enqueue
  end.

Definition closeAdapters : M World unit :=
  i <- gets inlineAdapter ;;
  r <- gets redisAdapter ;;
  modify (with_adapters false false) ;;;
  (if i then InlineAdapter.close else ret tt) ;;;
  (if r then RedisAdapter.close else ret tt).

(** ** base-job.js: the static methods *)

(** The options object of [set]. *)
Record SetOptions : Type := {
  set_queue : option string;
  set_attempts : option Z;
  set_backoff : option Z
}.

(** [a ?? b] where [b] may itself be null. *)
Definition nullish_opt {A} (a b : option A) : option A :=
  match a with Some x => Some x | None => b end.

(** [static async performLater(...args)], [this] being the class [c]. *)
Definition performLater (c : nat) (args : list Value) : M World Value :=
  adapter <- getAdapter ;;
  C <- class_of c ;;
  config <- gets currentConfig ;;
  Adapter_enqueue adapter C
    {| args := Some args;
       delay := None;
       attempts := Some (nullish (retryAttempts C) (defaultRetryAttempts config));
       backoff := Some (nullish (backoffDelay C) (defaultBackoffDelay config)) |}.

(** [static async performIn(delayMs, ...args)]. *)
Definition performIn (c : nat) (delayMs : Z) (args : list Value) : M World Value :=
  adapter <- getAdapter ;;
  C <- class_of c ;;
  config <- gets currentConfig ;;
  Adapter_enqueue adapter C
    {| args := Some args;
       delay := Some delayMs;
       attempts := Some (nullish (retryAttempts C) (defaultRetryAttempts config));
       backoff := Some (nullish (backoffDelay C) (defaultBackoffDelay config)) |}.

(** [static async performAt(date, ...args)]; [date] is the value of
    [date.getTime()]. *)
Definition performAt (c : nat) (date : Z) (args : list Value) : M World Value :=
  Date_now <- gets now ;;
  let delayMs := Z.max 0 (date - Date_now) in
  performIn c delayMs args.

(** The object returned by [set]: its three methods call the same
    methods of the class [ConfiguredJob]. *)
Record Chainable : Type := { ConfiguredJob : nat }.

(** [static set(options)]: a subclass of the class [c] with its own
    [queue], [retryAttempts], [backoffDelay], [name] and [_filePath] (the
    last one assigned after the class is made); the methods are those of
    [c]. *)
Definition set (c : nat) (options : SetOptions) : M World Chainable :=
  JobClass <- class_of c ;;
  configured <- define_class
    {| extends := Some c;
       name := name JobClass;
       queue := nullish (set_queue options) (queue JobClass);
       retryAttempts := nullish_opt (set_attempts options) (retryAttempts JobClass);
       backoffDelay := nullish_opt (set_backoff options) (backoffDelay JobClass);
       _filePath := _filePath JobClass;
       own_filePath := true;
       perform := perform JobClass;
       beforePerform := beforePerform JobClass;
       afterPerform := afterPerform JobClass;
       onError := onError JobClass |} ;;
  ret {| ConfiguredJob := configured |}.

Module Chain.

Definition performLater (o : Chainable) (args : list Value) : M World Value :=
  performLater (ConfiguredJob o) args.

Definition performIn (o : Chainable) (delayMs : Z) (args : list Value) : M World Value :=
  performIn (ConfiguredJob o) delayMs args.

Definition performAt (o : Chainable) (date : Z) (args : list Value) : M World Value :=
  performAt (ConfiguredJob o) date args.

End Chain.

(** ** worker.js *)

(** [C] with [path] as the value its [_filePath] reads, as an own field
    or not. *)
Definition with_filePath (own : bool) (path : option string) (C : JobClass) : JobClass :=
  {| extends := extends C; name := name C; queue := queue C;
     retryAttempts := retryAttempts C; backoffDelay := backoffDelay C;
     _filePath := path; own_filePath := own;
     perform := perform C;
     beforePerform := beforePerform C;
     afterPerform := afterPerform C;
     onError := onError C |}.

(** Whether the class [d] reads its [_filePath] from the class [c]: it is
    [c], or it has no own [_filePath] and the class it extends reads the
    field from [c].  The chain of superclasses is followed for at most
    [fuel] steps, and a chain within the store is no longer than the
    store. *)
Fixpoint reads_filePath_of (cs : list JobClass) (fuel : nat) (d c : nat) : bool :=
  if decide (d = c) then true
  else match fuel with
       | O => false
       | S fuel' =>
           match cs !! d with
           | Some D =>
               if own_filePath D then false
               else match extends D with
                    | Some super => reads_filePath_of cs fuel' super c
                    | None => false
                    end
           | None => false
           end
       end.

(** [JobClass._filePath = path] on the class object [c]: the field
    becomes an own field of [c], and every class that reads its
    [_filePath] from [c] reads the new value. *)
Definition write_filePath (c : nat) (path : option string) (cs : list JobClass)
  : list JobClass :=
  imap (fun d D =>
          if decide (d = c) then with_filePath true path D
          else if reads_filePath_of cs (length cs) d c
               then with_filePath (own_filePath D) path D
               else D) cs.

(** [registerJob(JobClass, filePath = null)]: writes the static field
    [_filePath] of the class and records the class under its name. *)
Definition registerJob (c : nat) (filePath : option string) : M World unit :=
  JobClass <- class_of c ;;
  modify (with_classes (write_filePath c filePath)) ;;;
  modify (with_jobRegistry (insert (name JobClass) c)).

Record WorkerOptions : Type := { concurrency : option Z }.

(** [new Worker(queueName, processJob, { connection, concurrency })]. *)
Definition new_Worker (queueName : string) (concurrency : Z) : M World Worker :=
  fun w =>
    let worker :=
      {| worker_id := length (constructed (broker w));
         worker_queue := queueName;
         worker_connection := config.connection w;
         worker_concurrency := concurrency |} in
    (with_broker (fun b =>
       {| reachable := reachable b; next_id := next_id b;
          add_calls := add_calls b; constructed := constructed b ++ [worker] |}) w,
     Returned worker).

(** [startWorker(queueName, options = {})]. *)
Definition startWorker (queueName : string) (options : WorkerOptions) : M World Worker :=
  let concurrency := default 1 (concurrency options) in
  workers_ <- gets workers ;;
  match workers_ !! queueName with
  | Some existing => ret existing
  | None =>
      worker <- new_Worker queueName concurrency ;;
      modify (with_workers (insert queueName worker)) ;;;
      ret worker
  end.

(** [stopWorkers()]: closes every worker and empties the map; closing a
    worker is taken to succeed. *)
Definition stopWorkers : M World unit := modify (with_workers (fun _ => ∅)).

(** ** Job classes of the examples, and variations of them *)

Definition returns (v : Value) : Method := fun j => (j, Returned v).

Definition throws (error : Value) : Method := fun j => (j, Thrown error).

(** examples/demo-app/jobs: [class C], [perform(name = 'world')]. *)
Definition Greet : JobClass :=
  {| extends := None; name := "C"; queue := "default";
     retryAttempts := None; backoffDelay := None; _filePath := None; own_filePath := false;
     perform := fun args =>
       let name := match args with
                   | [] | VUndefined :: _ => VStr "world"
                   | v :: _ => v
                   end in
       returns (VObj [("greeted", name)]);
     beforePerform := None; afterPerform := None; onError := None |}.

(** examples/usage.js: [class FailingJob]. *)
Definition FailingJob : JobClass :=
  {| extends := None; name := "FailingJob"; queue := "default";
     retryAttempts := Some 3; backoffDelay := Some 500; _filePath := None; own_filePath := false;
     perform := fun _ => throws (VError "This job always fails!");
     beforePerform := None; afterPerform := None;
     onError := Some (fun _ => returns VUndefined) |}.

(** A class with the methods of [C] and the three hooks given. *)
Definition with_hooks (C : JobClass) (before : Method) (after handler : Value -> Method)
  : JobClass :=
  {| extends := extends C; name := name C; queue := queue C;
     retryAttempts := retryAttempts C; backoffDelay := backoffDelay C;
     _filePath := _filePath C; own_filePath := own_filePath C;
     perform := perform C;
     beforePerform := Some before;
     afterPerform := Some after;
     onError := Some handler |}.

(** A hook that does [this.arguments.push(v)]. *)
Definition push_argument (v : Value) : Method :=
  fun j =>
    (match arguments j with
     | RestArray =>
         {| arguments := RestArray; rest := rest j ++ [v];
            attemptNumber := attemptNumber j; jobId := jobId j; fields := fields j |}
     | OtherArray items =>
         {| arguments := OtherArray (items ++ [v]); rest := rest j;
            attemptNumber := attemptNumber j; jobId := jobId j; fields := fields j |}
     end,
     Returned VUndefined).

(** [C] with a [beforePerform] that pushes [v] onto [this.arguments]. *)
Definition PushesArgument (C : JobClass) (v : Value) : JobClass :=
  with_hooks C (push_argument v)
    (fun _ => returns VUndefined) (fun _ => returns VUndefined).

(** [class child_name extends C { }], [C] being the class [c] of the
    store: no static field of its own. *)
Definition ChildOf (c : nat) (C : JobClass) (child_name : string) : JobClass :=
  {| extends := Some c; name := child_name; queue := queue C;
     retryAttempts := retryAttempts C; backoffDelay := backoffDelay C;
     _filePath := _filePath C; own_filePath := false;
     perform := perform C;
     beforePerform := beforePerform C;
     afterPerform := afterPerform C;
     onError := onError C |}.

(** Hooks that count their calls in a field of the instance. *)
Definition bump (field : string) : Method :=
  fun j =>
    let n := match fields j !! field with Some (VNum n) => n | _ => 0 end in
    ({| arguments := arguments j; rest := rest j;
        attemptNumber := attemptNumber j;
        jobId := jobId j; fields := <[field := VNum (n + 1)]> (fields j) |},
     Returned VUndefined).

Definition Counted (C : JobClass) : JobClass :=
  with_hooks C (bump "before") (fun _ => bump "after") (fun _ => bump "errors").

(** [C] with a [beforePerform] that throws. *)
Definition BeforeFails (C : JobClass) : JobClass :=
  with_hooks C (throws (VError "before hook failed"))
    (fun _ => returns VUndefined) (fun _ => returns VUndefined).

(** [C] with an [afterPerform] that throws. *)
Definition AfterFails (C : JobClass) : JobClass :=
  with_hooks C (returns VUndefined)
    (fun _ => throws (VError "after hook failed")) (fun _ => returns VUndefined).

(** [C] with an [onError] that throws. *)
Definition HandlerFails (C : JobClass) : JobClass :=
  with_hooks C (returns VUndefined)
    (fun _ => returns VUndefined) (fun _ => throws (VError "handler failed")).

(** A class with the static fields and the hooks of
    examples/send-email-job.js; its [perform] returns the delivery record
    without the time stamp. *)
Definition Mailer : JobClass :=
  {| extends := None; name := "SendEmailJob"; queue := "mailers";
     retryAttempts := Some 5; backoffDelay := Some 2000; _filePath := None; own_filePath := false;
     perform := fun args =>
       returns (VObj [("delivered", VBool true);
                      ("to", nth 0 args VUndefined);
                      ("subject", nth 1 args VUndefined)]);
     beforePerform := Some (returns VUndefined);
     afterPerform := Some (fun _ => returns VUndefined);
     onError := Some (fun _ => returns VUndefined) |}.

(** ** Observations of one [performNow] *)

(** [job.performNow(...args)] on the instance [j]: the calls it makes,
    what the caller gets, and the instance afterwards. *)
Definition performNow_calls (C : JobClass) (args : list Value) (j : Job) : list Event :=
  calls (BaseJob.performNow C args (start_run j)).1.

Definition performNow_outcome (C : JobClass) (args : list Value) (j : Job) : outcome Value :=
  (BaseJob.performNow C args (start_run j)).2.

(** What awaiting an optional hook does to the instance. *)
Definition run_hook (hook : option Method) (j : Job) : Job * outcome Value :=
  match hook with
  | Some m => m j
  | None => (j, Returned VUndefined)
  end.

(** [performNow] gets as far as calling [perform]: the instance has its
    arguments assigned and [beforePerform], if there is one, has returned,
    leaving the instance as [j1]. *)
Definition reaches_perform (C : JobClass) (args : list Value) (j j1 : Job) : Prop :=
  ∃ v, run_hook (beforePerform C) (set_arguments args j) = (j1, Returned v).

(** [perform] is called, with what the array of arguments holds by
    then, and raises [e], leaving the instance as [j2]. *)
Definition perform_raises (C : JobClass) (args : list Value) (j : Job) (e : Value) (j2 : Job)
  : Prop :=
  ∃ j1, reaches_perform C args j j1 ∧ perform C (rest j1) j1 = (j2, Thrown e).

(** [perform] is called, with what the array of arguments holds by
    then, and returns [r], leaving the instance as [j2]. *)
Definition perform_returns (C : JobClass) (args : list Value) (j : Job) (r : Value) (j2 : Job)
  : Prop :=
  ∃ j1, reaches_perform C args j j1 ∧ perform C (rest j1) j1 = (j2, Returned r).

(** A configuration value names an adapter kind when it is one of the
    strings of [ADAPTER_TYPES]. *)
Definition valid_adapter_kind (v : Value) : Prop :=
  ∃ key kind, (key, kind) ∈ ADAPTER_TYPES ∧ v = VStr kind.

(** The calls made up to and including [perform], [args] being the
    arguments [perform] is called with. *)
Definition calls_to_perform (C : JobClass) (args : list Value) : list Event :=
  match beforePerform C with
  | Some _ => [CallBeforePerform; CallPerform args]
  | None => [CallPerform args]
  end.

(** What the array of arguments holds when [perform] is due: what
    [beforePerform], if there is one, has left in it. *)
Definition spread_args (C : JobClass) (args : list Value) (j : Job) : list Value :=
  rest (run_hook (beforePerform C) (set_arguments args j)).1.

(** The submission [RedisAdapter.enqueue] makes for the class [C] through
    the handle [q]. *)
Definition submission_of (C : JobClass) (q : Queue) (args : list Value)
    (delay attempts backoff : Z) : Submission :=
  {| to_queue := q;
     job_name := name C;
     data := {| jobClassName := name C;
                jobClassPath := or_null (_filePath C);
                data_args := args |};
     opts := {| opts_delay := delay;
                opts_attempts := attempts;
                opts_backoff := {| backoff_type := "fixed"; backoff_delay := backoff |};
                removeOnComplete := true;
                removeOnFail := false |} |}.

(** The options [performLater] and [performIn] build for the class [C]. *)
Definition request (C : JobClass) (config : Config) (delayMs : option Z) (args : list Value)
  : EnqueueOptions :=
  {| args := Some args;
     delay := delayMs;
     attempts := Some (nullish (retryAttempts C) (defaultRetryAttempts config));
     backoff := Some (nullish (backoffDelay C) (defaultBackoffDelay config)) |}.

(** ** worker.js: processing a job, starting several workers *)

(** What the worker is handed for one attempt: the id the broker gave
    the job, the payload, and the attempts made before this one. *)
Record BullJob : Type := {
  bull_id : string;
  bull_data : JobData;
  attemptsMade : Z
}.

Definition double_quote : string := String (Ascii.ascii_of_nat 34) EmptyString.

(** [async function processJob(bullJob)]. *)
Definition processJob (bullJob : BullJob) : M World Value :=
  let jobClassName := jobClassName (bull_data bullJob) in
  let args := data_args (bull_data bullJob) in
  registry <- gets jobRegistry ;;
  match registry !! jobClassName with
  | None =>
      throw (VError ("Job class " +:+ double_quote +:+ jobClassName +:+ double_quote
                     +:+ " not found in registry. "
                     +:+ "Did you forget to call registerJob(" +:+ jobClassName +:+ ")?"))
  | Some c =>
      JobClass <- class_of c ;;
      result <- perform_on_new JobClass
                  (fun job =>
                     {| arguments := arguments job;
                        rest := rest job;
                        attemptNumber := attemptsMade bullJob + 1;
                        jobId := Some (bull_id bullJob);
                        fields := fields job |})
                  args ;;
      ret result
  end.

(** [startWorkers(queueNames, options = {})]:
    [queueNames.map(name => startWorker(name, options))]. *)
Fixpoint startWorkers (queueNames : list string) (options : WorkerOptions)
  : M World (list Worker) :=
  match queueNames with
  | [] => ret []
  | name :: rest =>
      worker <- startWorker name options ;;
      others <- startWorkers rest options ;;
      ret (worker :: others)
  end.

(** ** loader.js *)

(** What a job file exports.  The model covers modules whose exports are
    job classes of the store and primitive values. *)
Inductive Primitive : Type :=
  | PUndefined
  | PNull
  | PBool (b : bool)
  | PNum (n : Z)
  | PStr (s : string).

Inductive Export : Type :=
  | ExportClass (c : nat)
  | ExportPrimitive (p : Primitive).

(** A module namespace: the exports by name, in the order of its keys;
    the default export is the one named ["default"]. *)
Definition Module_ : Type := list (string * Export).

(** What [globalThis] holds under a name. *)
Inductive Global : Type :=
  | GlobalClass (c : nat)
  | GlobalValue (v : Value).

(** The process as the loader sees it: the state of the other modules,
    the map [loadedJobs], the properties of [globalThis] (all writable),
    and the URLs given to [import()] so far. *)
Record Process : Type := {
  world : World;
  loadedJobs : gmap string nat;
  globalThis : gmap string Global;
  imported : list string
}.

(** What Node provides: [readdir] of node:fs/promises, dynamic
    [import()] of a module whose classes are in the store, [join] of
    node:path and [pathToFileURL(...).href] of node:url. *)
Record Host : Type := {
  readdir : string -> outcome (list string);
  dynamic_import : string -> outcome Module_;
  join : string -> string -> string;
  pathToFileURL : string -> string
}.

(** Options of [loadJobs]; [None] is an absent field. *)
Record LoadJobsOptions : Type := {
  global : option bool;
  registerWorker : option bool
}.

(** A call into the other modules. *)
Definition in_world {A} (m : M World A) : M Process A :=
  fun p =>
    let '(w, o) := m (world p) in
    ({| world := w; loadedJobs := loadedJobs p;
        globalThis := globalThis p; imported := imported p |}, o).

(** [s.endsWith(suffix)]. *)
Definition endsWith (s suffix : string) : bool :=
  let n := String.length s in
  let k := String.length suffix in
  if decide (k ≤ n)%nat
  then bool_decide (String.substring (n - k) k s = suffix)
  else false.

(** The filter of [loadJobs]: [.js] and [.mjs] files. *)
Definition is_job_file (f : string) : bool :=
  endsWith f ".js" || endsWith f ".mjs".

(** [error.code === code]: reading a property of [null] or [undefined]
    throws, an [Error] made without a code has none. *)
Definition error_code_is (error : Value) (code : string) : outcome bool :=
  match error with
  | VUndefined | VNull =>
      Thrown (VError ("Cannot read properties of " +:+ ToString error))
  | VObj props =>
      Returned (match list_find (fun kv => bool_decide (kv.1 = "code")) props with
                | Some (_, (_, VStr c)) => bool_decide (c = code)
                | _ => false
                end)
  | _ => Returned false
  end.

Definition truthy (p : Primitive) : bool :=
  match p with
  | PUndefined | PNull => false
  | PBool b => b
  | PNum n => negb (Z.eqb n 0)
  | PStr s => negb (bool_decide (s = EmptyString))
  end.

Definition export_truthy (e : Export) : bool :=
  match e with
  | ExportClass _ => true
  | ExportPrimitive p => truthy p
  end.

(** [typeof exp === 'function' && exp.prototype?.perform]. *)
Definition has_perform (e : Export) : bool :=
  match e with
  | ExportClass _ => true
  | ExportPrimitive _ => false
  end.

(** [module.default]. *)
Definition default_export (module : Module_) : Export :=
  match list_find (fun kv => bool_decide (kv.1 = "default")) module with
  | Some (_, (_, e)) => e
  | None => ExportPrimitive PUndefined
  end.

(** [module.default || Object.values(module).find(...)]. *)
Definition find_JobClass (module : Module_) : Export :=
  if export_truthy (default_export module) then default_export module
  else match List.find has_perform (Object_values module) with
       | Some e => e
       | None => ExportPrimitive PUndefined
       end.

(** [JobClass._filePath = filePath] on a class object. *)
Definition assign_filePath (c : nat) (filePath : string) : M World unit :=
  modify (with_classes (write_filePath c (Some filePath))).

(** The body of the loop of [loadJobs], for one file. *)
Definition load_file (host : Host) (jobsDir : string)
    (registerGlobal registerWorker : bool) (file : string) : M Process unit :=
  let filePath := join host jobsDir file in
  let fileUrl := pathToFileURL host filePath in
  try_catch
    (module <- (fun p =>
         ({| world := world p; loadedJobs := loadedJobs p;
             globalThis := globalThis p; imported := imported p ++ [fileUrl] |},
          dynamic_import host fileUrl)) ;;
     match find_JobClass module with
     | ExportClass c =>
         in_world (assign_filePath c filePath) ;;;
         (if registerWorker then in_world (registerJob c (Some filePath)) else ret tt) ;;;
         JobClass <- in_world (class_of c) ;;
         modify (fun p =>
           {| world := world p; loadedJobs := <[name JobClass := c]> (loadedJobs p);
              globalThis := globalThis p; imported := imported p |}) ;;;
         (if registerGlobal
          then modify (fun p =>
                 {| world := world p; loadedJobs := loadedJobs p;
                    globalThis := <[name JobClass := GlobalClass c]> (globalThis p);
                    imported := imported p |})
          else ret tt)
     | ExportPrimitive p =>
         if truthy p
         then throw (VError "Cannot create property '_filePath' on a primitive")
         else ret tt
     end)
    (fun error =>
       (* console.error(..., error.message) *)
       match error with
       | VUndefined | VNull =>
           throw (VError ("Cannot read properties of " +:+ ToString error
                          +:+ " (reading 'message')"))
       | _ => ret tt
       end).

(** The [for] loop of [loadJobs]. *)
Fixpoint load_files (host : Host) (jobsDir : string)
    (registerGlobal registerWorker : bool) (jobFiles : list string) : M Process unit :=
  match jobFiles with
  | [] => ret tt
  | file :: rest =>
      load_file host jobsDir registerGlobal registerWorker file ;;;
      load_files host jobsDir registerGlobal registerWorker rest
  end.

(** [async function loadJobs(jobsDir, options = {})]; it returns the map
    [loadedJobs]. *)
Definition loadJobs (host : Host) (jobsDir : string) (options : LoadJobsOptions)
  : M Process (gmap string nat) :=
  let registerGlobal := default true (global options) in
  let registerWorker := default true (registerWorker options) in
  fun p =>
    match readdir host jobsDir with
    | Thrown error =>
        match error_code_is error "ENOENT" with
        | Returned true => (p, Returned (loadedJobs p))
        | Returned false => (p, Thrown error)
        | Thrown e => (p, Thrown e)
        end
    | Returned files =>
        let jobFiles := List.filter is_job_file files in
        (load_files host jobsDir registerGlobal registerWorker jobFiles ;;;
         gets loadedJobs) p
    end.

(** Whether [import()] of a job file rejects with [undefined] or [null],
    the two values of which the [catch] of the loop cannot read
    [error.message]. *)
Definition rejects_nullish (host : Host) (jobsDir file : string) : bool :=
  match dynamic_import host (pathToFileURL host (join host jobsDir file)) with
  | Thrown VUndefined | Thrown VNull => true
  | _ => false
  end.

(** The job files the loop gets to: all of them up to and including the
    first whose import rejects so. *)
Fixpoint attempted (host : Host) (jobsDir : string) (jobFiles : list string)
  : list string :=
  match jobFiles with
  | [] => []
  | file :: rest =>
      file :: (if rejects_nullish host jobsDir file then []
               else attempted host jobsDir rest)
  end.

(** [getJob(name)]; [None] is [undefined]. *)
Definition getJob (name : string) : M Process (option nat) :=
  gets (fun p => loadedJobs p !! name).

(** [getAllJobs()]: a copy of the map. *)
Definition getAllJobs : M Process (gmap string nat) := gets loadedJobs.

(** One turn of the loop of [clearJobs]. *)
Definition clear_global (loaded : gmap string nat) (name : string)
    (globals : gmap string Global) : gmap string Global :=
  match globals !! name, loaded !! name with
  | Some (GlobalClass g), Some c => if decide (g = c) then delete name globals else globals
  | _, _ => globals
  end.

(** [clearJobs()]. *)
Definition clearJobs : M Process unit :=
  modify (fun p =>
    {| world := world p;
       loadedJobs := ∅;
       globalThis := foldr (clear_global (loadedJobs p)) (globalThis p)
                           (map fst (map_to_list (loadedJobs p)));
       imported := imported p |}).

(** ** Invariants of the process *)

(** The configured adapter kind is one of [ADAPTER_TYPES]. *)
Definition adapter_kind_ok (w : World) : Prop :=
  queueAdapter (currentConfig w) ∈ Object_values ADAPTER_TYPES.

(** Every cached queue handle was opened for the name it is cached
    under. *)
Definition queues_ok (w : World) : Prop :=
  ∀ queueName q, queues w !! queueName = Some q -> queue_name q = queueName.

(** Every worker of the map serves the queue it is recorded under and is
    one of the workers constructed. *)
Definition workers_ok (w : World) : Prop :=
  ∀ queueName k, workers w !! queueName = Some k ->
    worker_queue k = queueName ∧ k ∈ constructed (broker w).

(** Two class objects that differ at most in [_filePath]. *)
Definition same_but_path (C C' : JobClass) : Prop :=
  extends C' = extends C ∧ name C' = name C ∧ queue C' = queue C
  ∧ retryAttempts C' = retryAttempts C ∧ backoffDelay C' = backoffDelay C
  ∧ perform C' = perform C ∧ beforePerform C' = beforePerform C
  ∧ afterPerform C' = afterPerform C ∧ onError C' = onError C.

(** The instance [processJob] makes for a job of the broker. *)
Definition worker_instance (bullJob : BullJob) : Job :=
  {| arguments := OtherArray []; rest := [];
     attemptNumber := attemptsMade bullJob + 1;
     jobId := Some (bull_id bullJob); fields := ∅ |}.

(** A job in the manner of [FailingJob], whose [perform] reports the
    attempt it runs as. *)
Definition AttemptProbe : JobClass :=
  {| extends := None; name := "AttemptProbe"; queue := "default";
     retryAttempts := None; backoffDelay := None; _filePath := None; own_filePath := false;
     perform := fun _ j => (j, Returned (VNum (attemptNumber j)));
     beforePerform := None; afterPerform := None; onError := None |}.

(** Another class that is named ["C"]. *)
Definition OtherC : JobClass :=
  {| extends := None; name := "C"; queue := "default";
     retryAttempts := None; backoffDelay := None; _filePath := None; own_filePath := false;
     perform := fun _ => returns (VStr "the other C");
     beforePerform := None; afterPerform := None; onError := None |}.

(** What [clearJobs] leaves under a name of [globalThis]: nothing when
    the name still holds the class loaded under it, what was there
    otherwise. *)
Definition cleared (loaded : gmap string nat) (globals : gmap string Global)
    (name : string) : option Global :=
  match globals !! name, loaded !! name with
  | Some (GlobalClass g), Some c => if decide (g = c) then None else Some (GlobalClass g)
  | other, _ => other
  end.

(** examples/demo-app/jobs: [class SendWelcome]. *)
Definition SendWelcome : JobClass :=
  {| extends := None; name := "SendWelcome"; queue := "mailers";
     retryAttempts := None; backoffDelay := None; _filePath := None; own_filePath := false;
     perform := fun args =>
       returns (VObj [("sent", VBool true); ("to", nth 0 args VUndefined)]);
     beforePerform := None; afterPerform := None; onError := None |}.

(** A host with one jobs directory, [/app/jobs], holding the two job
    files of the demo application (classes 0 and 1 of the store), a file
    that is no script and a script that fails to load. *)
Definition demo_host : Host :=
  {| readdir := fun dir =>
       if decide (dir = "/app/jobs")
       then Returned ["README.md"; "broken.js"; "c.js"; "send-welcome.js"]
       else Thrown (VObj [("code", VStr "ENOENT")]);
     dynamic_import := fun url =>
       if decide (url = "file:///app/jobs/c.js")
       then Returned [("default", ExportClass 0)]
       else if decide (url = "file:///app/jobs/send-welcome.js")
       then Returned [("default", ExportClass 1)]
       else Thrown (VError "Unexpected token");
     join := fun dir file => dir +:+ "/" +:+ file;
     pathToFileURL := fun path => "file://" +:+ path |}.

(** The same host, but where the script that fails to load rejects with
    [undefined]. *)
Definition rejecting_host : Host :=
  {| readdir := readdir demo_host;
     dynamic_import := fun url =>
       if decide (url = "file:///app/jobs/broken.js")
       then Thrown VUndefined
       else dynamic_import demo_host url;
     join := join demo_host;
     pathToFileURL := pathToFileURL demo_host |}.

(** A process that has just loaded the modules. *)
Definition fresh_process (cs : list JobClass) : Process :=
  {| world := fresh_world cs 0; loadedJobs := ∅; globalThis := ∅; imported := [] |}.

(** * Properties *)

(** ** The model on the examples of the repository *)

(** [C.performNow('zeon')] of the demo application, and [C.performNow()]. *)
Example greet_zeon :
  performNow_outcome Greet [VStr "zeon"] new_job = Returned (VObj [("greeted", VStr "zeon")])
  ∧ performNow_outcome Greet [] new_job = Returned (VObj [("greeted", VStr "world")]).
Proof. split; reflexivity. Qed.

(** A class that does not override [perform]. *)
Example base_perform_not_implemented :
  performNow_outcome BaseJob.class [] new_job
  = Thrown (VError "BaseJob must implement the perform() method").
Proof. reflexivity. Qed.

(** [ProcessDataJob.performIn(500, ...)] with the inline adapter: the
    timer is awaited, then the job runs. *)
Example inline_performIn_waits :
  let w' := (performIn 0 500 [VStr "zeon"] (fresh_world [Greet] 1000)).1 in
  log w' = [Timer 500; CallPerform [VStr "zeon"]] ∧ now w' = 1500.
Proof. split; reflexivity. Qed.

(** [config.queueAdapter = 'redis'], then [config.reset()]. *)
Example set_queueAdapter_then_reset :
  let w := (config.set_queueAdapter (VStr "redis") (fresh_world [] 0)).1 in
  queueAdapter (currentConfig w) = "redis"
  ∧ currentConfig (config.reset w).1 = defaultConfig.
Proof. split; reflexivity. Qed.

(** [registerJob(FailingJob, '/jobs/failing.js')] writes the path on the
    class, and the payload of a later submission carries it. *)
Example registerJob_sets_path :
  let w0 := (config.set_queueAdapter (VStr "redis") (fresh_world [FailingJob] 0)).1 in
  let w1 := (registerJob 0 (Some "/jobs/failing.js") w0).1 in
  (_filePath <$> classes w1 !! 0%nat) = Some (Some "/jobs/failing.js")
  ∧ jobRegistry w1 !! "FailingJob" = Some 0%nat
  ∧ (jobClassPath ∘ data <$> add_calls (broker (performLater 0 [] w1).1))
    = [Some "/jobs/failing.js"].
Proof. repeat split; reflexivity. Qed.

(** An unreachable broker: [performLater] raises what [queue.add] raises. *)
Example enqueue_unreachable_broker :
  let w0 := (config.set_queueAdapter (VStr "redis") (fresh_world [FailingJob] 0)).1 in
  let down := with_broker (fun b =>
    {| reachable := false; next_id := next_id b;
       add_calls := add_calls b; constructed := constructed b |}) w0 in
  (performLater 0 [] down).2 = Thrown (VError "connect ECONNREFUSED").
Proof. reflexivity. Qed.

(** [closeAdapters] drops the cached adapters and the cached queues. *)
Example closeAdapters_clears :
  let w0 := (config.set_queueAdapter (VStr "redis") (fresh_world [FailingJob] 0)).1 in
  let w1 := (performLater 0 [] w0).1 in
  redisAdapter w1 = true ∧ is_Some (queues w1 !! "default")
  ∧ redisAdapter (closeAdapters w1).1 = false
  ∧ queues (closeAdapters w1).1 !! "default" = None.
Proof. repeat split; try reflexivity. eexists; reflexivity. Qed.

(** Two starts and a stop: one worker constructed for the queue, and a
    start after [stopWorkers] constructs another. *)
Example start_stop_start :
  let w1 := (startWorker "default" {| concurrency := None |} (fresh_world [] 0)).1 in
  let w2 := (startWorker "default" {| concurrency := None |} w1).1 in
  let w3 := (startWorker "default" {| concurrency := None |} (stopWorkers w2).1).1 in
  length (constructed (broker w2)) = 1%nat
  ∧ length (constructed (broker w3)) = 2%nat.
Proof. split; reflexivity. Qed.

(** ** The lifecycle of [performNow] *)

Ltac unfold_run :=
  unfold performNow_calls, performNow_outcome, BaseJob.performNow,
    assign_arguments, call_if_defined, call, try_catch, bind, ret, throw, modify,
    start_run, run_hook, option_map in *; simpl in *.

(** The four ways a run can go, with the hooks that are defined. *)

Lemma performNow_before_throws C args j j1 e :
  run_hook (beforePerform C) (set_arguments args j) = (j1, Thrown e) ->
  BaseJob.performNow C args (start_run j) =
  match onError C with
  | Some h =>
      ({| this := (h e j1).1; calls := [CallBeforePerform; CallOnError e] |},
       match (h e j1).2 with Returned _ => Thrown e | Thrown e' => Thrown e' end)
  | None => ({| this := j1; calls := [CallBeforePerform] |}, Thrown e)
  end.
Proof.
  intros Hb. unfold_run.
  destruct (beforePerform C) as [b|]; [|discriminate].
  simpl. rewrite Hb. destruct (onError C) as [h|]; [|reflexivity].
  simpl. destruct (h e j1) as [j' [v|e']]; reflexivity.
Qed.

Lemma performNow_perform_throws C args j e j2 :
  perform_raises C args j e j2 ->
  BaseJob.performNow C args (start_run j) =
  match onError C with
  | Some h =>
      ({| this := (h e j2).1; calls := calls_to_perform C (spread_args C args j) ++ [CallOnError e] |},
       match (h e j2).2 with Returned _ => Thrown e | Thrown e' => Thrown e' end)
  | None => ({| this := j2; calls := calls_to_perform C (spread_args C args j) |}, Thrown e)
  end.
Proof.
  intros (j1 & [v Hb] & Hp).
  assert (Hs : spread_args C args j = rest j1)
    by (unfold spread_args; rewrite Hb; reflexivity).
  rewrite Hs. clear Hs. unfold calls_to_perform. unfold_run.
  destruct (beforePerform C) as [b|].
  - simpl. rewrite Hb. simpl. rewrite Hp. destruct (onError C) as [h|]; [|reflexivity].
    simpl. destruct (h e j2) as [j' [v'|e']]; reflexivity.
  - injection Hb as <- _. simpl.
    change (rest (set_arguments args j)) with args in Hp. rewrite Hp. destruct (onError C) as [h|]; [|reflexivity].
    simpl. destruct (h e j2) as [j' [v'|e']]; reflexivity.
Qed.

Lemma performNow_perform_returns C args j r j2 :
  perform_returns C args j r j2 ->
  BaseJob.performNow C args (start_run j) =
  match afterPerform C with
  | None => ({| this := j2; calls := calls_to_perform C (spread_args C args j) |}, Returned r)
  | Some a =>
      match a r j2 with
      | (j3, Returned _) =>
          ({| this := j3; calls := calls_to_perform C (spread_args C args j) ++ [CallAfterPerform r] |},
           Returned r)
      | (j3, Thrown e) =>
          match onError C with
          | Some h =>
              ({| this := (h e j3).1;
                  calls := calls_to_perform C (spread_args C args j) ++ [CallAfterPerform r; CallOnError e] |},
               match (h e j3).2 with Returned _ => Thrown e | Thrown e' => Thrown e' end)
          | None =>
              ({| this := j3; calls := calls_to_perform C (spread_args C args j) ++ [CallAfterPerform r] |},
               Thrown e)
          end
      end
  end.
Proof.
  intros (j1 & [v Hb] & Hp).
  assert (Hs : spread_args C args j = rest j1)
    by (unfold spread_args; rewrite Hb; reflexivity).
  rewrite Hs. clear Hs. unfold calls_to_perform. unfold_run.
  destruct (beforePerform C) as [b|].
  - simpl. rewrite Hb. simpl. rewrite Hp.
    destruct (afterPerform C) as [a|]; [|reflexivity]. simpl.
    destruct (a r j2) as [j3 [v'|e]]; [reflexivity|].
    destruct (onError C) as [h|]; [|reflexivity].
    simpl. destruct (h e j3) as [j' [v'|e']]; reflexivity.
  - injection Hb as <- _. simpl.
    change (rest (set_arguments args j)) with args in Hp. rewrite Hp.
    destruct (afterPerform C) as [a|]; [|reflexivity]. simpl.
    destruct (a r j2) as [j3 [v'|e]]; [reflexivity|].
    destruct (onError C) as [h|]; [|reflexivity].
    simpl. destruct (h e j3) as [j' [v'|e']]; reflexivity.
Qed.

(** *** Order of the hooks *)

(** C1, as the code has it.  For a job class with the three hooks defined
    and any argument list: when [perform] returns [r] and [afterPerform]
    returns, the calls are exactly [beforePerform], [perform],
    [afterPerform] with [r], and the caller gets [r]; when [perform]
    returns and [afterPerform] throws [e], those three calls are followed by
    [onError] with [e]; when [perform] raises [e], the calls are exactly
    [beforePerform], [perform], [onError] with [e].  In each case
    [perform] receives what the array of arguments holds once
    [beforePerform] is done, and that is the argument list given whenever
    [beforePerform] leaves the array, which is [this.arguments], as it
    was. *)
Theorem performNow_hook_order C before after handler args j :
  beforePerform C = Some before ->
  afterPerform C = Some after ->
  onError C = Some handler ->
  (∀ r j2 j3 v,
     perform_returns C args j r j2 -> after r j2 = (j3, Returned v) ->
     performNow_calls C args j
       = [CallBeforePerform; CallPerform (spread_args C args j); CallAfterPerform r]
     ∧ performNow_outcome C args j = Returned r)
  ∧ (∀ r j2 j3 e,
     perform_returns C args j r j2 -> after r j2 = (j3, Thrown e) ->
     performNow_calls C args j
       = [CallBeforePerform; CallPerform (spread_args C args j); CallAfterPerform r;
          CallOnError e])
  ∧ (∀ e j2,
     perform_raises C args j e j2 ->
     performNow_calls C args j
       = [CallBeforePerform; CallPerform (spread_args C args j); CallOnError e])
  ∧ (rest (before (set_arguments args j)).1 = args -> spread_args C args j = args).
Proof.
  intros Hb Ha He. unfold performNow_calls, performNow_outcome.
  split; [|split; [|split]].
  - intros r j2 j3 v Hp Hafter.
    rewrite (performNow_perform_returns _ _ _ _ _ Hp).
    unfold calls_to_perform. rewrite Ha, Hb, Hafter. split; reflexivity.
  - intros r j2 j3 e Hp Hafter.
    rewrite (performNow_perform_returns _ _ _ _ _ Hp).
    unfold calls_to_perform. rewrite Ha, Hb, Hafter, He. reflexivity.
  - intros e j2 Hp.
    rewrite (performNow_perform_throws _ _ _ _ _ Hp).
    unfold calls_to_perform. rewrite Hb, He. reflexivity.
  - intros Hkept. unfold spread_args, run_hook. rewrite Hb. exact Hkept.
Qed.

(** The theorem at [C.performNow('zeon')] and at a failing job, both with
    counting hooks. *)
Lemma performNow_hook_order_witness :
  performNow_calls (Counted Greet) [VStr "zeon"] new_job
    = [CallBeforePerform; CallPerform [VStr "zeon"];
       CallAfterPerform (VObj [("greeted", VStr "zeon")])]
  ∧ performNow_calls (Counted FailingJob) [VStr "again"] new_job
    = [CallBeforePerform; CallPerform [VStr "again"];
       CallOnError (VError "This job always fails!")].
Proof.
  split.
  - destruct (performNow_hook_order (Counted Greet) (bump "before")
                (fun _ => bump "after") (fun _ => bump "errors")
                [VStr "zeon"] new_job eq_refl eq_refl eq_refl) as (Hok & _ & _ & Hargs).
    rewrite <- (Hargs eq_refl) at 2.
    eapply proj1, Hok.
    + eexists. split; [eexists; reflexivity | vm_compute; reflexivity].
    + vm_compute; reflexivity.
  - destruct (performNow_hook_order (Counted FailingJob) (bump "before")
                (fun _ => bump "after") (fun _ => bump "errors")
                [VStr "again"] new_job eq_refl eq_refl eq_refl)
      as (_ & _ & Hfail & Hargs).
    rewrite <- (Hargs eq_refl) at 2.
    eapply Hfail.
    eexists. split; [eexists; reflexivity | vm_compute; reflexivity].
Defined.

(** Where [afterPerform] throws, [perform] has succeeded and yet the
    calls are not the three of the success path: [onError] follows them. *)
Lemma afterPerform_failure_calls_onError :
  let C := AfterFails Greet in
  let r := VObj [("greeted", VStr "zeon")] in
  is_Some (beforePerform C) ∧ is_Some (afterPerform C) ∧ is_Some (onError C)
  ∧ perform_returns C [VStr "zeon"] new_job r (set_arguments [VStr "zeon"] new_job)
  ∧ performNow_calls C [VStr "zeon"] new_job
      = [CallBeforePerform; CallPerform [VStr "zeon"]; CallAfterPerform r;
         CallOnError (VError "after hook failed")]
  ∧ performNow_calls C [VStr "zeon"] new_job
      ≠ [CallBeforePerform; CallPerform [VStr "zeon"]; CallAfterPerform r].
Proof.
  cbv zeta. repeat split; try (eexists; reflexivity).
  - eexists. split; [eexists; reflexivity | reflexivity].
  - discriminate.
Qed.

(** Where [beforePerform] pushes a value onto [this.arguments], which is
    the array of arguments of the call, [perform] is called with that value
    after the arguments given. *)
Lemma beforePerform_push_reaches_perform :
  let C := PushesArgument Greet (VStr "extra") in
  let r := VObj [("greeted", VStr "zeon")] in
  is_Some (beforePerform C) ∧ is_Some (afterPerform C) ∧ is_Some (onError C)
  ∧ performNow_outcome C [VStr "zeon"] new_job = Returned r
  ∧ performNow_calls C [VStr "zeon"] new_job
      = [CallBeforePerform; CallPerform [VStr "zeon"; VStr "extra"]; CallAfterPerform r]
  ∧ performNow_calls C [VStr "zeon"] new_job
      ≠ [CallBeforePerform; CallPerform [VStr "zeon"]; CallAfterPerform r].
Proof.
  cbv zeta. repeat split; try (eexists; reflexivity). discriminate.
Qed.

(** The two ways in which a run with a successful [perform] is not
    [beforePerform], [perform] with the arguments given, [afterPerform]. *)
Lemma hook_order_counterexample :
  (performNow_outcome (PushesArgument Greet (VStr "extra")) [VStr "zeon"] new_job
     = Returned (VObj [("greeted", VStr "zeon")])
   ∧ performNow_calls (PushesArgument Greet (VStr "extra")) [VStr "zeon"] new_job
     ≠ [CallBeforePerform; CallPerform [VStr "zeon"];
        CallAfterPerform (VObj [("greeted", VStr "zeon")])])
  ∧ (perform_returns (AfterFails Greet) [VStr "zeon"] new_job
       (VObj [("greeted", VStr "zeon")]) (set_arguments [VStr "zeon"] new_job)
     ∧ performNow_calls (AfterFails Greet) [VStr "zeon"] new_job
       ≠ [CallBeforePerform; CallPerform [VStr "zeon"];
          CallAfterPerform (VObj [("greeted", VStr "zeon")])]).
Proof.
  split; split.
  - reflexivity.
  - discriminate.
  - eexists. split; [eexists; reflexivity | reflexivity].
  - discriminate.
Qed.

(** *** A failing [beforePerform] *)

(** C2, as the code has it.  When [beforePerform] raises [e], [perform] is
    never called; [onError], when defined, is called with [e] (the hook
    runs inside the [try] block); [performNow] then raises, and what it
    raises is [e] itself whenever [onError] is absent or returns. *)
Theorem beforePerform_error_skips_perform C before args j j1 e :
  beforePerform C = Some before ->
  before (set_arguments args j) = (j1, Thrown e) ->
  (∀ a, CallPerform a ∉ performNow_calls C args j)
  ∧ performNow_calls C args j
      = CallBeforePerform :: match onError C with
                             | Some _ => [CallOnError e]
                             | None => []
                             end
  ∧ (∃ e', performNow_outcome C args j = Thrown e')
  ∧ (match onError C with
     | Some handler => ∃ j2 v, handler e j1 = (j2, Returned v)
     | None => True
     end -> performNow_outcome C args j = Thrown e).
Proof.
  intros Hb Hthrow.
  assert (Hrun : run_hook (beforePerform C) (set_arguments args j) = (j1, Thrown e))
    by (rewrite Hb; exact Hthrow).
  unfold performNow_calls, performNow_outcome.
  rewrite (performNow_before_throws _ _ _ _ _ Hrun).
  destruct (onError C) as [handler|]; simpl.
  - repeat split.
    + intros a Hin. apply list_elem_of_In in Hin. simpl in Hin.
      destruct Hin as [H|[H|[]]]; discriminate.
    + destruct (handler e j1).2; eauto.
    + intros (j2 & v & Hh). rewrite Hh. reflexivity.
  - repeat split; eauto.
    intros a Hin. apply list_elem_of_In in Hin. simpl in Hin.
    destruct Hin as [H|[]]; discriminate.
Qed.

Lemma beforePerform_error_skips_perform_witness :
  (∀ a, CallPerform a ∉ performNow_calls (BeforeFails Greet) [VStr "zeon"] new_job)
  ∧ performNow_outcome (BeforeFails Greet) [VStr "zeon"] new_job
      = Thrown (VError "before hook failed").
Proof.
  destruct (beforePerform_error_skips_perform (BeforeFails Greet)
              (throws (VError "before hook failed")) [VStr "zeon"] new_job
              (set_arguments [VStr "zeon"] new_job) (VError "before hook failed")
              eq_refl eq_refl) as (Hskip & _ & _ & Hsame).
  split; [exact Hskip|].
  apply Hsame. simpl. eexists _, _. reflexivity.
Defined.

(** Where [onError] is defined and [beforePerform] raises, [onError] is
    called, with the error of [beforePerform]. *)
Lemma beforePerform_failure_calls_onError :
  let C := BeforeFails Greet in
  let e := VError "before hook failed" in
  run_hook (beforePerform C) (set_arguments [VStr "zeon"] new_job)
    = (set_arguments [VStr "zeon"] new_job, Thrown e)
  ∧ performNow_calls C [VStr "zeon"] new_job = [CallBeforePerform; CallOnError e]
  ∧ CallOnError e ∈ performNow_calls C [VStr "zeon"] new_job.
Proof.
  cbv zeta. split; [reflexivity|]. split; [reflexivity|].
  apply list_elem_of_In. vm_compute. auto.
Qed.

(** *** A failing [perform] *)

(** C3, as the code has it.  When [perform] raises [e]: [onError], when
    defined, is called with [e], right after [perform]; if [onError] is
    absent or returns (whatever it returns), [performNow] raises [e]
    itself; if [onError] raises in its turn, that error reaches the caller
    in place of [e].  The call of [perform] that [onError] follows is made
    with what the array of arguments holds by then, the arguments given
    when [beforePerform] has left the array as it was. *)
Theorem perform_error_reaches_onError_and_caller C args j e j2 :
  perform_raises C args j e j2 ->
  (is_Some (onError C) ->
     performNow_calls C args j = calls_to_perform C (spread_args C args j) ++ [CallOnError e])
  ∧ (onError C = None -> performNow_outcome C args j = Thrown e)
  ∧ (∀ handler j3 v,
       onError C = Some handler -> handler e j2 = (j3, Returned v) ->
       performNow_outcome C args j = Thrown e)
  ∧ (∀ handler j3 e',
       onError C = Some handler -> handler e j2 = (j3, Thrown e') ->
       performNow_outcome C args j = Thrown e')
  ∧ (rest (run_hook (beforePerform C) (set_arguments args j)).1 = args ->
     is_Some (onError C) ->
     performNow_calls C args j = calls_to_perform C args ++ [CallOnError e]).
Proof.
  intros Hp. unfold performNow_calls, performNow_outcome.
  rewrite (performNow_perform_throws _ _ _ _ _ Hp).
  repeat split.
  - intros [handler ->]. reflexivity.
  - intros ->. reflexivity.
  - intros handler j3 v -> Hh. simpl. rewrite Hh. reflexivity.
  - intros handler j3 e' -> Hh. simpl. rewrite Hh. reflexivity.
  - intros Hkept [handler ->]. unfold spread_args. rewrite Hkept. reflexivity.
Qed.

Lemma perform_error_reaches_onError_and_caller_witness :
  performNow_calls FailingJob [VStr "again"] new_job
    = [CallPerform [VStr "again"]; CallOnError (VError "This job always fails!")]
  ∧ performNow_outcome FailingJob [VStr "again"] new_job
    = Thrown (VError "This job always fails!").
Proof.
  assert (Hp : perform_raises FailingJob [VStr "again"] new_job
                 (VError "This job always fails!") (set_arguments [VStr "again"] new_job)).
  { eexists. split; [eexists; reflexivity | reflexivity]. }
  destruct (perform_error_reaches_onError_and_caller _ _ _ _ _ Hp)
    as (Hcalls & _ & Hsame & _).
  split.
  - apply Hcalls. eexists. reflexivity.
  - eapply Hsame; reflexivity.
Defined.

(** Where [onError] itself throws, [perform] has raised one error and the
    caller gets another. *)
Lemma onError_failure_replaces_error :
  let C := HandlerFails FailingJob in
  let e := VError "This job always fails!" in
  perform_raises C [VStr "again"] new_job e (set_arguments [VStr "again"] new_job)
  ∧ is_Some (onError C)
  ∧ performNow_outcome C [VStr "again"] new_job = Thrown (VError "handler failed")
  ∧ performNow_outcome C [VStr "again"] new_job ≠ Thrown e.
Proof.
  cbv zeta. split; [|split; [|split]].
  - eexists. split; [eexists; reflexivity | reflexivity].
  - eexists. reflexivity.
  - reflexivity.
  - discriminate.
Qed.

(** ** The configuration *)

Lemma includes_valid_adapter_kind v :
  includes (Object_values ADAPTER_TYPES) v = true ↔ valid_adapter_kind v.
Proof.
  unfold valid_adapter_kind, includes, Object_values, ADAPTER_TYPES. simpl. split.
  - destruct v; try discriminate. intros Hin%bool_decide_eq_true.
    apply list_elem_of_In in Hin. simpl in Hin.
    destruct Hin as [<-|[<-|[]]].
    + exists "INLINE", "inline". split; [|reflexivity]. apply list_elem_of_In. simpl. auto.
    + exists "REDIS", "redis". split; [|reflexivity]. apply list_elem_of_In. simpl. auto.
  - intros (key & kind & Hin & ->). apply bool_decide_eq_true.
    apply list_elem_of_In in Hin. simpl in Hin. apply list_elem_of_In. simpl.
    destruct Hin as [H|[H|[]]]; injection H as _ <-; auto.
Qed.

(** C7.  Assigning to [config.queueAdapter] a value that is not one of
    the adapter kinds throws in the setter itself, and the configuration
    (with it the adapter kind) is as it was. *)
Theorem set_queueAdapter_rejects_unknown_kind v w :
  ¬ valid_adapter_kind v ->
  ∃ message, config.set_queueAdapter v w = (w, Thrown (VError message)).
Proof.
  intros Hbad. unfold config.set_queueAdapter.
  destruct (includes (Object_values ADAPTER_TYPES) v) eqn:Hin.
  - exfalso. apply Hbad, includes_valid_adapter_kind, Hin.
  - eexists. reflexivity.
Qed.

Lemma set_queueAdapter_rejects_unknown_kind_witness :
  ∃ message,
    config.set_queueAdapter (VStr "kafka") (fresh_world [] 0)
      = (fresh_world [] 0, Thrown (VError message)).
Proof.
  apply (set_queueAdapter_rejects_unknown_kind (VStr "kafka") (fresh_world [] 0)).
  intros Hvalid. apply includes_valid_adapter_kind in Hvalid.
  vm_compute in Hvalid. discriminate Hvalid.
Defined.

(** C9.  Assigning an options object to [config.redis] merges it into the
    connection settings: every field of the object takes the object's
    value, every other field keeps the value it had, and nothing else of
    the process changes. *)
Theorem set_redis_merges options w :
  let w' := (config.set_redis options w).1 in
  (∀ field v, options !! field = Some v ->
     redis (currentConfig w') !! field = Some v)
  ∧ (∀ field, options !! field = None ->
     redis (currentConfig w') !! field = redis (currentConfig w) !! field)
  ∧ (config.set_redis options w).2 = Returned tt
  ∧ queueAdapter (currentConfig w') = queueAdapter (currentConfig w)
  ∧ defaultRetryAttempts (currentConfig w') = defaultRetryAttempts (currentConfig w)
  ∧ defaultBackoffDelay (currentConfig w') = defaultBackoffDelay (currentConfig w).
Proof.
  cbv zeta. unfold config.set_redis, modify, with_config. simpl.
  split; [|split; [|repeat split]].
  - intros field v Hin. apply lookup_union_Some_l, Hin.
  - intros field Hout. rewrite lookup_union_r by exact Hout. reflexivity.
Qed.

Lemma set_redis_merges_witness :
  let w' := (config.set_redis {["host" := VStr "redis.example.com"]} (fresh_world [] 0)).1 in
  redis (currentConfig w') !! "host" = Some (VStr "redis.example.com")
  ∧ redis (currentConfig w') !! "port" = Some (VNum 6379).
Proof.
  destruct (set_redis_merges {["host" := VStr "redis.example.com"]} (fresh_world [] 0))
    as (Hin & Hout & _).
  split.
  - apply Hin. reflexivity.
  - rewrite Hout by reflexivity. reflexivity.
Defined.

(** ** Workers *)

(** C8.  When a worker is recorded for a queue name, [startWorker] for
    that name returns that worker and changes nothing: no worker is
    constructed and the map of workers is as it was. *)
Theorem startWorker_idempotent queueName options existing w :
  workers w !! queueName = Some existing ->
  startWorker queueName options w = (w, Returned existing).
Proof.
  intros Hrunning. unfold startWorker, bind, gets. simpl.
  rewrite Hrunning. reflexivity.
Qed.

Lemma startWorker_idempotent_witness :
  let started := startWorker "mailers" {| concurrency := None |} (fresh_world [] 0) in
  ∃ worker,
    started.2 = Returned worker
    ∧ startWorker "mailers" {| concurrency := Some 4 |} started.1
        = (started.1, Returned worker).
Proof.
  cbv zeta. eexists. split; [reflexivity|].
  apply startWorker_idempotent. reflexivity.
Defined.

(** ** Dispatch through the adapters *)

Lemma getAdapter_inline w :
  queueAdapter (currentConfig w) = "inline" ->
  getAdapter w = (with_adapters true (redisAdapter w) w, Returned Inline).
Proof.
  intros Hkind. unfold getAdapter, bind, gets, modify, ret. simpl.
  rewrite Hkind. reflexivity.
Qed.

Lemma getAdapter_redis w :
  queueAdapter (currentConfig w) = "redis" ->
  getAdapter w = (with_adapters (inlineAdapter w) true w, Returned Redis).
Proof.
  intros Hkind. unfold getAdapter, bind, gets, modify, ret. simpl.
  rewrite Hkind. reflexivity.
Qed.

(** [getAdapter] touches only the adapter cache. *)
Lemma getAdapter_frame w :
  let w' := (getAdapter w).1 in
  classes w' = classes w ∧ currentConfig w' = currentConfig w
  ∧ queues w' = queues w ∧ broker w' = broker w ∧ now w' = now w.
Proof.
  cbv zeta. unfold getAdapter, bind, gets, modify, ret, throw. simpl.
  repeat case_decide; simpl; auto.
Qed.

(** What [RedisAdapter.enqueue] does, whether or not the broker answers:
    one call of [queue.add] on the handle cached for the queue name. *)
Lemma RedisAdapter_enqueue_effect C options w :
  let w' := (RedisAdapter.enqueue C options w).1 in
  classes w' = classes w
  ∧ currentConfig w' = currentConfig w
  ∧ ∃ q, queues w' !! or_string (queue C) "default" = Some q
       ∧ add_calls (broker w')
         = add_calls (broker w)
           ++ [submission_of C q (default [] (args options))
                 (default 0 (delay options))
                 (default (defaultRetryAttempts (currentConfig w)) (attempts options))
                 (default (defaultBackoffDelay (currentConfig w)) (backoff options))].
Proof.
  cbv zeta. unfold RedisAdapter.enqueue, bind, gets, getQueue, Queue_add, ret.
  simpl.
  destruct (queues w !! or_string (queue C) "default") as [q|] eqn:Hq; simpl;
    destruct (reachable (broker w)); simpl;
    (split; [reflexivity|]; split; [reflexivity|]; eexists; split;
     [first [exact Hq | apply lookup_insert_eq] | reflexivity]).
Qed.

(** [InlineAdapter.enqueue] leaves the classes, the configuration and the
    broker alone. *)
Lemma InlineAdapter_enqueue_frame C options w :
  let w' := (InlineAdapter.enqueue C options w).1 in
  classes w' = classes w ∧ currentConfig w' = currentConfig w
  ∧ queues w' = queues w ∧ broker w' = broker w.
Proof.
  cbv zeta. unfold InlineAdapter.enqueue, bind, setTimeout, modify, ret, perform_on_new.
  case_bool_decide; simpl;
    destruct (BaseJob.performNow C _ _) as [r o]; simpl; auto.
Qed.

(** Enqueuing through either adapter leaves the classes and the
    configuration alone. *)
Lemma Adapter_enqueue_frame adapter C options w :
  let w' := (Adapter_enqueue adapter C options w).1 in
  classes w' = classes w ∧ currentConfig w' = currentConfig w.
Proof.
  cbv zeta. destruct adapter; simpl.
  - destruct (InlineAdapter_enqueue_frame C options w) as (? & ? & _). auto.
  - destruct (RedisAdapter_enqueue_effect C options w) as (? & ? & _). auto.
Qed.

(** [performLater] and [performIn] on a class of the store: the adapter of
    the moment is given the class and the options resolved against the
    configuration of the moment. *)
Lemma performLater_unfold c C args w :
  classes w !! c = Some C ->
  performLater c args w
  = (adapter <- getAdapter ;;
     Adapter_enqueue adapter C (request C (currentConfig w) None args)) w.
Proof.
  intros Hc. unfold performLater, bind, class_of, gets.
  destruct (getAdapter_frame w) as (Hcs & Hcfg & _).
  destruct (getAdapter w) as [w' [adapter|e]]; simpl in *; [|reflexivity].
  rewrite Hcs, Hc, Hcfg. reflexivity.
Qed.

Lemma performIn_unfold c C delayMs args w :
  classes w !! c = Some C ->
  performIn c delayMs args w
  = (adapter <- getAdapter ;;
     Adapter_enqueue adapter C (request C (currentConfig w) (Some delayMs) args)) w.
Proof.
  intros Hc. unfold performIn, bind, class_of, gets.
  destruct (getAdapter_frame w) as (Hcs & Hcfg & _).
  destruct (getAdapter w) as [w' [adapter|e]]; simpl in *; [|reflexivity].
  rewrite Hcs, Hc, Hcfg. reflexivity.
Qed.

(** Either call leaves the classes and the configuration alone. *)
Lemma performLater_frame c args w :
  let w' := (performLater c args w).1 in
  classes w' = classes w ∧ currentConfig w' = currentConfig w.
Proof.
  cbv zeta. unfold performLater, bind, class_of, gets.
  destruct (getAdapter_frame w) as (Hcs & Hcfg & _).
  destruct (getAdapter w) as [w' [adapter|e]]; simpl in *; [|auto].
  destruct (classes w' !! c) as [C|]; simpl; [|auto].
  destruct (Adapter_enqueue_frame adapter C
              (request C (currentConfig w') None args) w') as [H1 H2].
  unfold request in *. split; congruence.
Qed.

(** With the Redis adapter configured, [performLater] on the class [C]
    makes one submission for [C]: no delay, and the retry settings of [C]
    where it has them, of the configuration where it has not. *)
Lemma performLater_with_redis c C args w :
  queueAdapter (currentConfig w) = "redis" ->
  classes w !! c = Some C ->
  let w' := (performLater c args w).1 in
  ∃ q, queues w' !! or_string (queue C) "default" = Some q
     ∧ add_calls (broker w')
       = add_calls (broker w)
         ++ [submission_of C q args 0
               (nullish (retryAttempts C) (defaultRetryAttempts (currentConfig w)))
               (nullish (backoffDelay C) (defaultBackoffDelay (currentConfig w)))].
Proof.
  intros Hkind Hc. cbv zeta. rewrite (performLater_unfold _ _ _ _ Hc).
  unfold bind. rewrite (getAdapter_redis _ Hkind). simpl.
  destruct (RedisAdapter_enqueue_effect C (request C (currentConfig w) None args)
              (with_adapters (inlineAdapter w) true w)) as (_ & _ & q & Hq & Hadd).
  exists q. split; [exact Hq|]. exact Hadd.
Qed.

(** *** The durable adapter *)

(** C6.  For a job class with [retryAttempts = 3] and a [backoffDelay],
    [performLater] with the Redis adapter configured makes one submission:
    its options carry no delay, [attempts = 3] and a backoff of type
    ['fixed'] whose delay is the class's [backoffDelay]; its payload is the
    class name, the class's file path when one is known (a path that is
    not the empty string) and [null] when none is, and the arguments as
    given; it goes to the handle cached for the class's queue name. *)
Theorem performLater_redis_submission c C b args w :
  queueAdapter (currentConfig w) = "redis" ->
  classes w !! c = Some C ->
  retryAttempts C = Some 3 ->
  backoffDelay C = Some b ->
  let w' := (performLater c args w).1 in
  ∃ q s,
    queues w' !! (if decide (queue C = EmptyString) then "default" else queue C) = Some q
    ∧ add_calls (broker w') = add_calls (broker w) ++ [s]
    ∧ to_queue s = q
    ∧ opts_delay (opts s) = 0
    ∧ opts_attempts (opts s) = 3
    ∧ opts_backoff (opts s) = {| backoff_type := "fixed"; backoff_delay := b |}
    ∧ jobClassName (data s) = name C
    ∧ data_args (data s) = args
    ∧ (∀ path, _filePath C = Some path -> path ≠ EmptyString ->
         jobClassPath (data s) = Some path)
    ∧ (_filePath C = None ∨ _filePath C = Some EmptyString ->
         jobClassPath (data s) = None).
Proof.
  intros Hkind Hc Hattempts Hbackoff. cbv zeta.
  destruct (performLater_with_redis c C args w Hkind Hc) as (q & Hq & Hadd).
  rewrite Hattempts, Hbackoff in Hadd. simpl in Hadd.
  exists q. eexists. split; [exact Hq|]. split; [exact Hadd|].
  simpl. repeat split.
  - intros path Hpath Hne. rewrite Hpath. simpl.
    rewrite decide_False by exact Hne. reflexivity.
  - intros [-> | ->]; reflexivity.
Qed.

(** The theorem at [FailingJob] once it is registered with its file: the
    payload carries the class name, the path and the argument. *)
Lemma performLater_redis_submission_witness :
  let w0 := (config.set_queueAdapter (VStr "redis") (fresh_world [FailingJob] 0)).1 in
  let w := (registerJob 0 (Some "/jobs/failing.js") w0).1 in
  ∃ q s,
    queues (performLater 0 [VStr "again"] w).1 !! "default" = Some q
    ∧ add_calls (broker (performLater 0 [VStr "again"] w).1) = [s]
    ∧ to_queue s = q
    ∧ opts_attempts (opts s) = 3
    ∧ opts_backoff (opts s) = {| backoff_type := "fixed"; backoff_delay := 500 |}
    ∧ data s = {| jobClassName := "FailingJob";
                  jobClassPath := Some "/jobs/failing.js";
                  data_args := [VStr "again"] |}.
Proof.
  cbv zeta.
  destruct (performLater_redis_submission 0
              (with_filePath true (Some "/jobs/failing.js") FailingJob)
              500 [VStr "again"]
              (registerJob 0 (Some "/jobs/failing.js")
                 (config.set_queueAdapter (VStr "redis") (fresh_world [FailingJob] 0)).1).1
              eq_refl eq_refl eq_refl eq_refl)
    as (q & s & Hq & Hadd & Hto & _ & Hattempts & Hbackoff & Hname & Hargs & Hpath & _).
  exists q, s. split; [exact Hq|]. split; [exact Hadd|]. split; [exact Hto|].
  split; [exact Hattempts|]. split; [exact Hbackoff|].
  specialize (Hpath "/jobs/failing.js" eq_refl ltac:(discriminate)).
  destruct s as [sq sn [dn dp da] so]. simpl in *. congruence.
Defined.

(** *** Scoped overrides *)



(** *** Scheduling *)

(** C5.  [performAt] is [performIn] with the delay
    [max(0, date - Date.now())]; for a date at or before the current time
    it is [performIn] with delay 0, result and effects alike, so it raises
    nothing that [performIn] with delay 0 does not raise. *)
Theorem performAt_delegates c date args w :
  performAt c date args w = performIn c (Z.max 0 (date - now w)) args w
  ∧ (date <= now w -> performAt c date args w = performIn c 0 args w).
Proof.
  assert (Hdelegate :
    performAt c date args w = performIn c (Z.max 0 (date - now w)) args w)
    by reflexivity.
  split; [exact Hdelegate|].
  intros Hpast. rewrite Hdelegate. f_equal. lia.
Qed.

Lemma performAt_delegates_witness :
  let w := fresh_world [Greet] 1000 in
  400 <= now w
  ∧ performAt 0 400 [VStr "zeon"] w = performIn 0 0 [VStr "zeon"] w
  ∧ (performAt 0 400 [VStr "zeon"] w).2 = Returned (VObj [("greeted", VStr "zeon")]).
Proof.
  cbv zeta.
  assert (Hpast : 400 <= now (fresh_world [Greet] 1000)) by (simpl; lia).
  split; [exact Hpast|].
  destruct (performAt_delegates 0 400 [VStr "zeon"] (fresh_world [Greet] 1000))
    as [_ Hzero].
  split; [exact (Hzero Hpast)|].
  rewrite (Hzero Hpast). reflexivity.
Defined.

(** *** The inline adapter *)





(** * Further properties of the code *)

(** ** [performNow] with any of the hooks defined or not *)

(** A run of [performNow] fails in [beforePerform], or reaches [perform]
    and sees it raise, or sees it return. *)
Lemma performNow_cases C args j :
  (∃ j1 e, run_hook (beforePerform C) (set_arguments args j) = (j1, Thrown e))
  ∨ (∃ e j2, perform_raises C args j e j2)
  ∨ (∃ r j2, perform_returns C args j r j2).
Proof.
  unfold perform_raises, perform_returns, reaches_perform.
  destruct (run_hook (beforePerform C) (set_arguments args j)) as [j1 [v|e]] eqn:Hb.
  - destruct (perform C (rest j1) j1) as [j2 [r|e]] eqn:Hp.
    + right; right. exists r, j2, j1. eauto.
    + right; left. exists e, j2, j1. eauto.
  - left. eauto.
Qed.

Lemma not_elem_of_calls_to_perform C args e :
  CallOnError e ∉ calls_to_perform C args.
Proof.
  unfold calls_to_perform. intros Hin. apply list_elem_of_In in Hin.
  destruct (beforePerform C); simpl in Hin; intuition discriminate.
Qed.

Lemma run_hook_before_defined C j j1 e :
  run_hook (beforePerform C) j = (j1, Thrown e) -> is_Some (beforePerform C).
Proof. destruct (beforePerform C); [eauto | discriminate]. Qed.

(** A run that returns: what it has done. *)
Lemma performNow_returned C args j r :
  performNow_outcome C args j = Returned r ->
  ∃ j2,
    perform_returns C args j r j2
    ∧ (∀ after, afterPerform C = Some after -> ∃ j3 v, after r j2 = (j3, Returned v))
    ∧ performNow_calls C args j
      = calls_to_perform C (spread_args C args j)
        ++ match afterPerform C with Some _ => [CallAfterPerform r] | None => [] end
    ∧ (∀ e, CallOnError e ∉ performNow_calls C args j).
Proof.
  unfold performNow_outcome, performNow_calls.
  destruct (performNow_cases C args j) as [(j1 & e & Hb)|[(e & j2 & Hp)|(r' & j2 & Hp)]].
  - rewrite (performNow_before_throws _ _ _ _ _ Hb).
    destruct (onError C) as [h|]; simpl; [destruct (h e j1).2|]; discriminate.
  - rewrite (performNow_perform_throws _ _ _ _ _ Hp).
    destruct (onError C) as [h|]; simpl; [destruct (h e j2).2|]; discriminate.
  - rewrite (performNow_perform_returns _ _ _ _ _ Hp).
    destruct (afterPerform C) as [a|].
    + destruct (a r' j2) as [j3 [v|e]] eqn:Ha.
      * simpl. intros [= <-]. exists j2. split; [exact Hp|]. split.
        { intros after [= <-]. eauto. }
        split; [reflexivity|].
        intros e Hin. apply elem_of_app in Hin as [Hin|Hin].
        -- exact (not_elem_of_calls_to_perform _ _ _ Hin).
        -- apply list_elem_of_In in Hin. simpl in Hin. intuition discriminate.
      * destruct (onError C) as [h|]; simpl; [destruct (h e j3).2|]; discriminate.
    + simpl. intros [= <-]. exists j2. split; [exact Hp|]. split; [discriminate|].
      split; [rewrite app_nil_r; reflexivity|].
      intros e Hin. exact (not_elem_of_calls_to_perform _ _ _ Hin).
Qed.

(** X1.  [performNow] returns a value only as the result of [perform]:
    then [perform] was called and returned that value, [afterPerform] (if
    defined) returned, the calls are those up to [perform] followed by
    [afterPerform] when it is defined, and [onError] was not called.  The
    call of [perform] is made with what the array of arguments holds by
    then, the arguments given when [beforePerform] has left the array as
    it was. *)
Theorem performNow_returns_result_of_perform C args j r :
  performNow_outcome C args j = Returned r ->
  ∃ j2,
    perform_returns C args j r j2
    ∧ (∀ after, afterPerform C = Some after -> ∃ j3 v, after r j2 = (j3, Returned v))
    ∧ performNow_calls C args j
      = calls_to_perform C (spread_args C args j)
        ++ match afterPerform C with Some _ => [CallAfterPerform r] | None => [] end
    ∧ (∀ e, CallOnError e ∉ performNow_calls C args j)
    ∧ (rest (run_hook (beforePerform C) (set_arguments args j)).1 = args ->
       performNow_calls C args j
       = calls_to_perform C args
         ++ match afterPerform C with Some _ => [CallAfterPerform r] | None => [] end).
Proof.
  intros Hout.
  destruct (performNow_returned C args j r Hout) as (j2 & Hp & Hafter & Hcalls & Hno).
  exists j2. split; [exact Hp|]. split; [exact Hafter|]. split; [exact Hcalls|].
  split; [exact Hno|].
  intros Hkept. rewrite Hcalls. unfold spread_args. rewrite Hkept. reflexivity.
Qed.

Lemma performNow_returns_result_of_perform_witness :
  ∃ j2, perform_returns (Counted Greet) [VStr "zeon"] new_job
          (VObj [("greeted", VStr "zeon")]) j2
        ∧ ∀ e, CallOnError e ∉ performNow_calls (Counted Greet) [VStr "zeon"] new_job.
Proof.
  destruct (performNow_returns_result_of_perform (Counted Greet) [VStr "zeon"] new_job
              (VObj [("greeted", VStr "zeon")]) eq_refl) as (j2 & Hp & _ & _ & Hno & _).
  exists j2. split; [exact Hp | exact Hno].
Defined.

(** X2.  With [onError] defined, it is called exactly when [performNow]
    raises, and then once, as the last call: a run that returns never calls
    it. *)
Theorem onError_called_iff_raises C args j :
  is_Some (onError C) ->
  match performNow_outcome C args j with
  | Returned _ => ∀ e, CallOnError e ∉ performNow_calls C args j
  | Thrown _ =>
      ∃ before_it e0,
        performNow_calls C args j = before_it ++ [CallOnError e0]
        ∧ ∀ e, CallOnError e ∉ before_it
  end.
Proof.
  intros [h Hh].
  destruct (performNow_outcome C args j) as [r|e] eqn:Hout.
  - destruct (performNow_returned C args j r Hout) as (_ & _ & _ & _ & H).
    exact H.
  - revert Hout. unfold performNow_outcome, performNow_calls.
    destruct (performNow_cases C args j) as [(j1 & e1 & Hb)|[(e1 & j2 & Hp)|(r' & j2 & Hp)]].
    + rewrite (performNow_before_throws _ _ _ _ _ Hb), Hh. simpl. intros _.
      exists [CallBeforePerform], e1. split; [reflexivity|].
      intros e' Hin. apply list_elem_of_In in Hin. simpl in Hin. intuition discriminate.
    + rewrite (performNow_perform_throws _ _ _ _ _ Hp), Hh. simpl. intros _.
      exists (calls_to_perform C (spread_args C args j)), e1. split; [reflexivity|].
      intros e'. apply not_elem_of_calls_to_perform.
    + rewrite (performNow_perform_returns _ _ _ _ _ Hp).
      destruct (afterPerform C) as [a|]; [|discriminate].
      destruct (a r' j2) as [j3 [v|e1]]; [discriminate|].
      rewrite Hh. simpl. intros _.
      exists (calls_to_perform C (spread_args C args j) ++ [CallAfterPerform r']), e1.
      split; [rewrite <- app_assoc; reflexivity|].
      intros e' Hin. apply elem_of_app in Hin as [Hin|Hin].
      * exact (not_elem_of_calls_to_perform _ _ _ Hin).
      * apply list_elem_of_In in Hin. simpl in Hin. intuition discriminate.
Qed.

Lemma onError_called_iff_raises_witness :
  ∃ before_it e0,
    performNow_calls (AfterFails Greet) [VStr "zeon"] new_job
      = before_it ++ [CallOnError e0]
    ∧ ∀ e, CallOnError e ∉ before_it.
Proof.
  exact (onError_called_iff_raises (AfterFails Greet) [VStr "zeon"] new_job
           (ex_intro _ _ eq_refl)).
Defined.

(** X3.  [performNow] calls nothing but the methods the class defines: a
    hook that is not a function is never called; [perform] is only ever
    called with what the array of arguments holds once [beforePerform] is
    done, which is the argument list of [performNow] when the class has no
    [beforePerform] or it leaves the array as it was; [afterPerform] is
    only called with a value [perform] has returned; no timer is set. *)
Theorem performNow_calls_only_defined_hooks C args j ev :
  ev ∈ performNow_calls C args j ->
  match ev with
  | CallBeforePerform => is_Some (beforePerform C)
  | CallPerform a =>
      a = spread_args C args j
      ∧ (beforePerform C = None -> a = args)
      ∧ (∀ before, beforePerform C = Some before ->
           rest (before (set_arguments args j)).1 = args -> a = args)
  | CallAfterPerform r => is_Some (afterPerform C) ∧ ∃ j2, perform_returns C args j r j2
  | CallOnError _ => is_Some (onError C)
  | Timer _ => False
  end.
Proof.
  assert (Hpre : ∀ ev, ev ∈ calls_to_perform C (spread_args C args j) ->
            match ev with
            | CallBeforePerform => is_Some (beforePerform C)
            | CallPerform a =>
                a = spread_args C args j
                ∧ (beforePerform C = None -> a = args)
                ∧ (∀ before, beforePerform C = Some before ->
                     rest (before (set_arguments args j)).1 = args -> a = args)
            | _ => False
            end).
  { intros ev' Hin. unfold calls_to_perform in Hin. apply list_elem_of_In in Hin.
    unfold spread_args, run_hook in *.
    destruct (beforePerform C) eqn:Hb; simpl in Hin.
    - destruct Hin as [<-|[<-|[]]]; [eauto|].
      split; [reflexivity|]. split; [discriminate|]. intros before [= <-] Hkept.
      exact Hkept.
    - destruct Hin as [<-|[]]. split; [reflexivity|]. split; [reflexivity|].
      discriminate. }
  unfold performNow_calls.
  destruct (performNow_cases C args j) as [(j1 & e & Hb)|[(e & j2 & Hp)|(r & j2 & Hp)]].
  - rewrite (performNow_before_throws _ _ _ _ _ Hb).
    pose proof (run_hook_before_defined _ _ _ _ Hb) as Hdef.
    destruct (onError C) as [h|] eqn:Hh; simpl; intros Hin;
      apply list_elem_of_In in Hin; simpl in Hin.
    + destruct Hin as [<-|[<-|[]]]; eauto.
    + destruct Hin as [<-|[]]; eauto.
  - rewrite (performNow_perform_throws _ _ _ _ _ Hp).
    destruct (onError C) as [h|] eqn:Hh; simpl; intros Hin.
    + apply elem_of_app in Hin as [Hin|Hin].
      * specialize (Hpre _ Hin). destruct ev; tauto.
      * apply list_elem_of_In in Hin. simpl in Hin. destruct Hin as [<-|[]]. eauto.
    + specialize (Hpre _ Hin). destruct ev; tauto.
  - rewrite (performNow_perform_returns _ _ _ _ _ Hp).
    destruct (afterPerform C) as [a|] eqn:Ha.
    + destruct (a r j2) as [j3 [v|e]].
      * simpl. intros Hin. apply elem_of_app in Hin as [Hin|Hin].
        -- specialize (Hpre _ Hin). destruct ev; tauto.
        -- apply list_elem_of_In in Hin. simpl in Hin. destruct Hin as [<-|[]]. eauto.
      * destruct (onError C) as [h|] eqn:Hh; simpl; intros Hin;
          apply elem_of_app in Hin as [Hin|Hin];
          try (specialize (Hpre _ Hin); destruct ev; tauto);
          apply list_elem_of_In in Hin; simpl in Hin.
        -- destruct Hin as [<-|[<-|[]]]; eauto.
        -- destruct Hin as [<-|[]]; eauto.
    + simpl. intros Hin. specialize (Hpre _ Hin). destruct ev; tauto.
Qed.

(** The theorem at a failing job, and at a job whose [beforePerform]
    pushes a value onto [this.arguments]: [perform] is called with the
    value after the argument given. *)
Lemma performNow_calls_only_defined_hooks_witness :
  is_Some (onError FailingJob)
  ∧ spread_args (PushesArgument Greet (VStr "extra")) [VStr "zeon"] new_job
    = [VStr "zeon"; VStr "extra"].
Proof.
  split.
  - apply (performNow_calls_only_defined_hooks FailingJob [VStr "again"] new_job
             (CallOnError (VError "This job always fails!"))).
    apply list_elem_of_In. vm_compute. auto.
  - destruct (performNow_calls_only_defined_hooks
                (PushesArgument Greet (VStr "extra")) [VStr "zeon"] new_job
                (CallPerform [VStr "zeon"; VStr "extra"])) as [Hspread _].
    + apply list_elem_of_In. vm_compute. auto.
    + symmetry. exact Hspread.
Defined.

(** X4.  A failing [afterPerform] fails the call although [perform] has
    succeeded: the caller gets an error in place of the result of
    [perform], and it is the error of [afterPerform] when [onError] is
    absent or returns. *)
Theorem afterPerform_error_fails_the_call C after args j r j2 j3 e :
  perform_returns C args j r j2 ->
  afterPerform C = Some after ->
  after r j2 = (j3, Thrown e) ->
  (∃ e', performNow_outcome C args j = Thrown e')
  ∧ (match onError C with
     | Some handler => ∃ j4 v, handler e j3 = (j4, Returned v)
     | None => True
     end -> performNow_outcome C args j = Thrown e).
Proof.
  intros Hp Ha Hafter. unfold performNow_outcome.
  rewrite (performNow_perform_returns _ _ _ _ _ Hp), Ha, Hafter.
  destruct (onError C) as [h|]; simpl.
  - split.
    + destruct (h e j3).2; eauto.
    + intros (j4 & v & ->). reflexivity.
  - eauto.
Qed.

Lemma afterPerform_error_fails_the_call_witness :
  performNow_outcome (AfterFails Greet) [VStr "zeon"] new_job
  = Thrown (VError "after hook failed").
Proof.
  assert (Hp : perform_returns (AfterFails Greet) [VStr "zeon"] new_job
                 (VObj [("greeted", VStr "zeon")]) (set_arguments [VStr "zeon"] new_job)).
  { eexists. split; [eexists; reflexivity | reflexivity]. }
  destruct (afterPerform_error_fails_the_call (AfterFails Greet)
              (fun _ => throws (VError "after hook failed")) [VStr "zeon"] new_job
              _ _ (set_arguments [VStr "zeon"] new_job) (VError "after hook failed")
              Hp eq_refl eq_refl) as [_ Hsame].
  apply Hsame. simpl. eexists _, _. reflexivity.
Defined.

(** ** The two adapters behind [performLater], [performIn], [performAt] *)

(** [RedisAdapter.enqueue] sets no timer and calls nothing on a job. *)
Lemma RedisAdapter_enqueue_quiet C options w :
  let w' := (RedisAdapter.enqueue C options w).1 in
  log w' = log w ∧ now w' = now w ∧ workers w' = workers w
  ∧ jobRegistry w' = jobRegistry w.
Proof.
  cbv zeta. unfold RedisAdapter.enqueue, bind, gets, getQueue, Queue_add, ret. simpl.
  destruct (queues w !! or_string (queue C) "default"); simpl;
    destruct (reachable (broker w)); simpl; auto.
Qed.

Lemma performIn_with_redis c C delayMs args w :
  queueAdapter (currentConfig w) = "redis" ->
  classes w !! c = Some C ->
  let w' := (performIn c delayMs args w).1 in
  log w' = log w ∧ now w' = now w
  ∧ ∃ q, queues w' !! or_string (queue C) "default" = Some q
       ∧ add_calls (broker w')
         = add_calls (broker w)
           ++ [submission_of C q args delayMs
                 (nullish (retryAttempts C) (defaultRetryAttempts (currentConfig w)))
                 (nullish (backoffDelay C) (defaultBackoffDelay (currentConfig w)))].
Proof.
  intros Hkind Hc. cbv zeta. rewrite (performIn_unfold _ _ _ _ _ Hc).
  unfold bind. rewrite (getAdapter_redis _ Hkind). simpl.
  destruct (RedisAdapter_enqueue_quiet C (request C (currentConfig w) (Some delayMs) args)
              (with_adapters (inlineAdapter w) true w)) as (Hlog & Hnow & _).
  destruct (RedisAdapter_enqueue_effect C (request C (currentConfig w) (Some delayMs) args)
              (with_adapters (inlineAdapter w) true w)) as (_ & _ & q & Hq & Hadd).
  split; [exact Hlog|]. split; [exact Hnow|].
  exists q. split; [exact Hq | exact Hadd].
Qed.

(** X5.  With the Redis adapter, [performIn] hands the job to the broker
    and does not run it: no method of the job is called and no timer is
    set; one submission is made, and its delay is the delay given, as it
    is, a negative one too. *)
Theorem performIn_redis_submits_without_running c C delayMs args w :
  queueAdapter (currentConfig w) = "redis" ->
  classes w !! c = Some C ->
  let w' := (performIn c delayMs args w).1 in
  log w' = log w
  ∧ now w' = now w
  ∧ ∃ q s, queues w' !! or_string (queue C) "default" = Some q
         ∧ add_calls (broker w') = add_calls (broker w) ++ [s]
         ∧ to_queue s = q
         ∧ opts_delay (opts s) = delayMs
         ∧ data_args (data s) = args
         ∧ opts_attempts (opts s)
           = nullish (retryAttempts C) (defaultRetryAttempts (currentConfig w))
         ∧ backoff_delay (opts_backoff (opts s))
           = nullish (backoffDelay C) (defaultBackoffDelay (currentConfig w)).
Proof.
  intros Hkind Hc. cbv zeta.
  destruct (performIn_with_redis c C delayMs args w Hkind Hc)
    as (Hlog & Hnow & q & Hq & Hadd).
  split; [exact Hlog|]. split; [exact Hnow|].
  exists q. eexists. split; [exact Hq|]. split; [exact Hadd|].
  repeat split.
Qed.

Lemma performIn_redis_submits_without_running_witness :
  let w := (config.set_queueAdapter (VStr "redis") (fresh_world [Greet] 1000)).1 in
  log (performIn 0 (-250) [VStr "zeon"] w).1 = []
  ∧ (opts_delay ∘ opts <$> add_calls (broker (performIn 0 (-250) [VStr "zeon"] w).1))
    = [-250].
Proof.
  cbv zeta.
  destruct (performIn_redis_submits_without_running 0 Greet (-250) [VStr "zeon"]
              (config.set_queueAdapter (VStr "redis") (fresh_world [Greet] 1000)).1
              eq_refl eq_refl) as (Hlog & _ & q & s & _ & Hadd & _ & Hdelay & _).
  split; [exact Hlog|].
  rewrite Hadd. simpl. rewrite Hdelay. reflexivity.
Defined.

(** X6.  With the Redis adapter, [performAt] submits the job with the
    delay [max(0, date - Date.now())]: a date in the past gives the delay
    0, never a negative one. *)
Theorem performAt_redis_delay_not_negative c C date args w :
  queueAdapter (currentConfig w) = "redis" ->
  classes w !! c = Some C ->
  let w' := (performAt c date args w).1 in
  ∃ s, add_calls (broker w') = add_calls (broker w) ++ [s]
     ∧ opts_delay (opts s) = Z.max 0 (date - now w)
     ∧ 0 <= opts_delay (opts s)
     ∧ (date <= now w -> opts_delay (opts s) = 0).
Proof.
  intros Hkind Hc. cbv zeta.
  change (performAt c date args w) with (performIn c (Z.max 0 (date - now w)) args w).
  destruct (performIn_with_redis c C (Z.max 0 (date - now w)) args w Hkind Hc)
    as (_ & _ & q & _ & Hadd).
  eexists. split; [exact Hadd|]. simpl. split; [reflexivity|]. split; lia.
Qed.

Lemma performAt_redis_delay_not_negative_witness :
  let w := (config.set_queueAdapter (VStr "redis") (fresh_world [Greet] 1000)).1 in
  (opts_delay ∘ opts <$> add_calls (broker (performAt 0 400 [VStr "zeon"] w).1)) = [0].
Proof.
  cbv zeta.
  destruct (performAt_redis_delay_not_negative 0 Greet 400 [VStr "zeon"]
              (config.set_queueAdapter (VStr "redis") (fresh_world [Greet] 1000)).1
              eq_refl eq_refl) as (s & Hadd & _ & _ & Hzero).
  rewrite Hadd. simpl. rewrite Hzero by (simpl; lia). reflexivity.
Defined.

(** X7.  With the inline adapter, [performIn] runs the job in the calling
    process: for a positive delay a timer is set with that delay and
    awaited first (it waits for the delay itself up to 2147483647 ms, and
    for 1 ms beyond, as timers of Node do), then (in every case) a new
    instance runs [performNow] with the arguments as given, and the caller
    gets what [performNow] gives; the broker is not contacted and no queue
    is opened. *)
Theorem performIn_inline_runs_after_timer c C delayMs args w :
  queueAdapter (currentConfig w) = "inline" ->
  classes w !! c = Some C ->
  let w' := (performIn c delayMs args w).1 in
  (performIn c delayMs args w).2 = performNow_outcome C args new_job
  ∧ log w' = log w
             ++ (if bool_decide (delayMs > 0) then [Timer delayMs] else [])
             ++ performNow_calls C args new_job
  ∧ now w' = (if bool_decide (delayMs > 0)
              then now w + (if decide (delayMs <= 2147483647) then delayMs else 1)
              else now w)
  ∧ broker w' = broker w
  ∧ queues w' = queues w.
Proof.
  intros Hkind Hc. cbv zeta. rewrite (performIn_unfold _ _ _ _ _ Hc).
  unfold bind. rewrite (getAdapter_inline _ Hkind). simpl.
  unfold InlineAdapter.enqueue, bind, setTimeout, modify, ret, perform_on_new,
    performNow_outcome, performNow_calls. simpl.
  unfold timer_delay.
  case_bool_decide; simpl;
    destruct (BaseJob.performNow C args (start_run new_job)) as [r o]; simpl;
    repeat split; rewrite <- ?app_assoc; try reflexivity.
  repeat case_decide; try reflexivity; lia.
Qed.

(** The theorem at a delay of half a second, and at a delay beyond what
    a timer can hold. *)
Lemma performIn_inline_runs_after_timer_witness :
  let w := fresh_world [Greet] 1000 in
  ((performIn 0 500 [VStr "zeon"] w).2 = Returned (VObj [("greeted", VStr "zeon")])
   ∧ log (performIn 0 500 [VStr "zeon"] w).1 = [Timer 500; CallPerform [VStr "zeon"]]
   ∧ now (performIn 0 500 [VStr "zeon"] w).1 = 1500)
  ∧ now (performIn 0 2147483648 [VStr "zeon"] w).1 = 1001.
Proof.
  cbv zeta. split.
  - destruct (performIn_inline_runs_after_timer 0 Greet 500 [VStr "zeon"]
                (fresh_world [Greet] 1000) eq_refl eq_refl)
      as (Hout & Hlog & Hnow & _).
    split; [exact Hout|]. split; [exact Hlog | exact Hnow].
  - destruct (performIn_inline_runs_after_timer 0 Greet 2147483648 [VStr "zeon"]
                (fresh_world [Greet] 1000) eq_refl eq_refl)
      as (_ & _ & Hnow & _).
    exact Hnow.
Defined.

(** X8.  [performLater] is [performIn] with the delay 0, whichever adapter
    is configured: both adapters read an absent delay as 0. *)
Theorem performLater_is_performIn_zero c args w :
  performLater c args w = performIn c 0 args w.
Proof.
  unfold performLater, performIn, bind, class_of, gets.
  destruct (getAdapter w) as [w' [adapter|e]]; simpl; [|reflexivity].
  destruct (classes w' !! c) as [C|]; simpl; [|reflexivity].
  destruct adapter; reflexivity.
Qed.

(** ** Queue handles and the adapter cache *)

(** X9.  A queue handle keeps the connection settings it was opened with:
    once a handle is cached for a queue name, [getQueue] returns that
    handle and changes nothing, also after [config.redis] has been
    assigned; only after [close] is a handle opened again, with the
    settings of that moment. *)
Theorem getQueue_keeps_first_connection queueName options w :
  let w1 := (getQueue queueName w).1 in
  let w2 := (config.set_redis options w1).1 in
  getQueue queueName w1 = (w1, (getQueue queueName w).2)
  ∧ getQueue queueName w2 = (w2, (getQueue queueName w).2)
  ∧ (getQueue queueName (RedisAdapter.close w2).1).2
    = Returned {| queue_name := queueName; queue_connection := config.connection w2 |}.
Proof.
  cbv zeta. unfold getQueue, config.set_redis, RedisAdapter.close, modify. simpl.
  destruct (queues w !! queueName) as [q|] eqn:Hq; simpl.
  - rewrite Hq. rewrite lookup_empty. auto.
  - rewrite lookup_insert_eq. rewrite lookup_empty. auto.
Qed.

(** X10.  The adapter kind of the configuration stays one of the known
    kinds: every setter of [config] (a rejected assignment too), [reset],
    [getAdapter] and the dispatch methods keep it so, and while it is so
    [getAdapter] returns an adapter and does not throw. *)
Theorem adapter_kind_stays_valid w :
  adapter_kind_ok w ->
  (∀ v, adapter_kind_ok (config.set_queueAdapter v w).1)
  ∧ (∀ options, adapter_kind_ok (config.set_redis options w).1)
  ∧ (∀ n, adapter_kind_ok (config.set_defaultRetryAttempts n w).1)
  ∧ (∀ n, adapter_kind_ok (config.set_defaultBackoffDelay n w).1)
  ∧ adapter_kind_ok (config.reset w).1
  ∧ (∀ c args, adapter_kind_ok (performLater c args w).1)
  ∧ adapter_kind_ok (getAdapter w).1
  ∧ ∃ adapter, (getAdapter w).2 = Returned adapter.
Proof.
  unfold adapter_kind_ok. intros Hok.
  split; [|split; [|split; [|split; [|split; [|split; [|split]]]]]].
  - intros v. unfold config.set_queueAdapter.
    destruct (includes (Object_values ADAPTER_TYPES) v) eqn:Hin; [|exact Hok].
    destruct v; try discriminate. simpl in *.
    apply bool_decide_eq_true in Hin. exact Hin.
  - intros options. exact Hok.
  - intros n. exact Hok.
  - intros n. exact Hok.
  - apply list_elem_of_In. simpl. auto.
  - intros c args. destruct (performLater_frame c args w) as [_ ->]. exact Hok.
  - destruct (getAdapter_frame w) as (_ & -> & _). exact Hok.
  - apply list_elem_of_In in Hok. simpl in Hok. destruct Hok as [Hk|[Hk|[]]].
    + exists Inline. rewrite getAdapter_inline by auto. reflexivity.
    + exists Redis. rewrite getAdapter_redis by auto. reflexivity.
Qed.

Lemma adapter_kind_stays_valid_witness :
  adapter_kind_ok (config.set_queueAdapter (VStr "kafka") (fresh_world [] 0)).1
  ∧ ∃ adapter, (getAdapter (fresh_world [] 0)).2 = Returned adapter.
Proof.
  assert (Hok : adapter_kind_ok (fresh_world [] 0)).
  { apply list_elem_of_In. simpl. auto. }
  destruct (adapter_kind_stays_valid (fresh_world [] 0) Hok)
    as (Hset & _ & _ & _ & _ & _ & _ & Hget).
  split; [exact (Hset (VStr "kafka")) | exact Hget].
Defined.

(** X11.  Assigning a known adapter kind takes effect at the next
    [getAdapter], whichever adapters were instantiated before, and changes
    nothing else of the configuration. *)
Theorem set_queueAdapter_takes_effect key kind w :
  (key, kind) ∈ ADAPTER_TYPES ->
  let w' := (config.set_queueAdapter (VStr kind) w).1 in
  (config.set_queueAdapter (VStr kind) w).2 = Returned tt
  ∧ queueAdapter (currentConfig w') = kind
  ∧ redis (currentConfig w') = redis (currentConfig w)
  ∧ defaultRetryAttempts (currentConfig w') = defaultRetryAttempts (currentConfig w)
  ∧ defaultBackoffDelay (currentConfig w') = defaultBackoffDelay (currentConfig w)
  ∧ (getAdapter w').2 = Returned (if decide (kind = "inline") then Inline else Redis).
Proof.
  intros Hin. apply list_elem_of_In in Hin. simpl in Hin.
  destruct Hin as [[= <- <-]|[[= <- <-]|[]]]; cbv zeta; repeat split.
Qed.

Lemma set_queueAdapter_takes_effect_witness :
  let w := (performLater 0 [] (fresh_world [Greet] 0)).1 in
  inlineAdapter w = true
  ∧ (getAdapter (config.set_queueAdapter (VStr "redis") w).1).2 = Returned Redis.
Proof.
  cbv zeta. split; [reflexivity|].
  assert (Hin : ("REDIS", "redis") ∈ ADAPTER_TYPES).
  { apply list_elem_of_In. simpl. auto. }
  destruct (set_queueAdapter_takes_effect "REDIS" "redis"
              (performLater 0 [] (fresh_world [Greet] 0)).1 Hin)
    as (_ & _ & _ & _ & _ & Hget).
  exact Hget.
Defined.

(** X12.  [closeAdapters] forgets both adapter instances and, when the
    Redis adapter had been instantiated, every cached queue handle; it
    leaves the configuration, the classes, the workers and what was
    submitted as they are; closing again changes nothing. *)
Theorem closeAdapters_idempotent w :
  let w1 := (closeAdapters w).1 in
  inlineAdapter w1 = false
  ∧ redisAdapter w1 = false
  ∧ queues w1 = (if redisAdapter w then ∅ else queues w)
  ∧ currentConfig w1 = currentConfig w
  ∧ classes w1 = classes w
  ∧ workers w1 = workers w
  ∧ broker w1 = broker w
  ∧ closeAdapters w1 = (w1, Returned tt).
Proof.
  cbv zeta. unfold closeAdapters, bind, gets, modify, ret,
    InlineAdapter.close, RedisAdapter.close, ret, modify. simpl.
  destruct (inlineAdapter w), (redisAdapter w); simpl; repeat split.
Qed.

(** When no handle is cached for the queue of the class, the submission
    goes through a handle opened with the settings of the moment. *)
Lemma RedisAdapter_enqueue_opens C options w :
  queues w !! or_string (queue C) "default" = None ->
  let w' := (RedisAdapter.enqueue C options w).1 in
  ∃ s, add_calls (broker w') = add_calls (broker w) ++ [s]
     ∧ to_queue s = {| queue_name := or_string (queue C) "default";
                       queue_connection := config.connection w |}
     ∧ queues w' !! or_string (queue C) "default" = Some (to_queue s).
Proof.
  intros Hq. cbv zeta.
  unfold RedisAdapter.enqueue, bind, gets, getQueue, Queue_add, ret. simpl.
  rewrite Hq. simpl.
  destruct (reachable (broker w)); simpl; eexists;
    (split; [reflexivity|]; split; [reflexivity|]; apply lookup_insert_eq).
Qed.

(** What [closeAdapters] keeps, and what it does to the queue cache. *)
Lemma closeAdapters_frame_aux w :
  currentConfig (closeAdapters w).1 = currentConfig w
  ∧ classes (closeAdapters w).1 = classes w
  ∧ broker (closeAdapters w).1 = broker w
  ∧ queues (closeAdapters w).1 = (if redisAdapter w then ∅ else queues w).
Proof.
  unfold closeAdapters, bind, gets, modify, ret,
    InlineAdapter.close, RedisAdapter.close, ret, modify. simpl.
  destruct (inlineAdapter w), (redisAdapter w); simpl; repeat split.
Qed.

(** X13.  After [closeAdapters], the next [performLater] with the Redis
    adapter sets everything up again by itself: the adapter is
    instantiated anew and the submission goes through a handle opened with
    the connection settings of that moment. *)
Theorem performLater_after_close_reopens c C args w :
  queueAdapter (currentConfig w) = "redis" ->
  classes w !! c = Some C ->
  redisAdapter w = true ->
  let w1 := (closeAdapters w).1 in
  let w2 := (performLater c args w1).1 in
  redisAdapter w2 = true
  ∧ ∃ s, add_calls (broker w2) = add_calls (broker w) ++ [s]
       ∧ data_args (data s) = args
       ∧ to_queue s = {| queue_name := or_string (queue C) "default";
                         queue_connection := config.connection w |}
       ∧ queues w2 !! or_string (queue C) "default" = Some (to_queue s).
Proof.
  intros Hkind Hc Hredis. cbv zeta.
  destruct (closeAdapters_frame_aux w) as (Hcfg & Hcs & Hbroker & Hqueues).
  rewrite Hredis in Hqueues.
  assert (Hc1 : classes (closeAdapters w).1 !! c = Some C) by (rewrite Hcs; exact Hc).
  assert (Hkind1 : queueAdapter (currentConfig (closeAdapters w).1) = "redis")
    by (rewrite Hcfg; exact Hkind).
  rewrite (performLater_unfold _ _ _ _ Hc1). unfold bind.
  rewrite (getAdapter_redis _ Hkind1). simpl.
  set (w1' := with_adapters (inlineAdapter (closeAdapters w).1) true (closeAdapters w).1).
  assert (Hnone : queues w1' !! or_string (queue C) "default" = None).
  { subst w1'. simpl. rewrite Hqueues. apply lookup_empty. }
  destruct (RedisAdapter_enqueue_opens C
              (request C (currentConfig (closeAdapters w).1) None args) w1' Hnone)
    as (s & Hadd & Hto & Hq).
  destruct (RedisAdapter_enqueue_effect C
              (request C (currentConfig (closeAdapters w).1) None args) w1')
    as (_ & _ & q' & _ & Hadd').
  split.
  - unfold RedisAdapter.enqueue, bind, gets, getQueue, Queue_add, ret. simpl.
    destruct (queues _ !! _); simpl; destruct (reachable _); reflexivity.
  - exists s. split; [|split; [|split]].
    + rewrite Hadd. subst w1'. simpl. rewrite Hbroker. reflexivity.
    + rewrite Hadd' in Hadd. apply app_inv_head in Hadd. injection Hadd as <-.
      reflexivity.
    + rewrite Hto. subst w1'. unfold config.connection, config.redis_field. simpl.
      rewrite Hcfg. reflexivity.
    + exact Hq.
Qed.

Lemma performLater_after_close_reopens_witness :
  let w0 := (config.set_queueAdapter (VStr "redis") (fresh_world [FailingJob] 0)).1 in
  let w := (config.set_redis {["host" := VStr "redis.example.com"]}
              (performLater 0 [] w0).1).1 in
  (host ∘ queue_connection <$> queues w !! "default") = Some (VStr "localhost")
  ∧ ∃ s, add_calls (broker (performLater 0 [VStr "again"] (closeAdapters w).1).1)
         = add_calls (broker w) ++ [s]
       ∧ host (queue_connection (to_queue s)) = VStr "redis.example.com".
Proof.
  cbv zeta. split; [reflexivity|].
  destruct (performLater_after_close_reopens 0 FailingJob [VStr "again"]
              (config.set_redis {["host" := VStr "redis.example.com"]}
                 (performLater 0 []
                    (config.set_queueAdapter (VStr "redis")
                       (fresh_world [FailingJob] 0)).1).1).1
              eq_refl eq_refl eq_refl) as (_ & s & Hadd & _ & Hto & _).
  exists s. split; [exact Hadd|]. rewrite Hto. reflexivity.
Defined.

(** ** Scoped overrides through the Redis adapter *)



(** ** The queue a submission goes to *)

Lemma getQueue_queues_ok queueName w :
  queues_ok w ->
  queues_ok (getQueue queueName w).1
  ∧ ∃ q, (getQueue queueName w).2 = Returned q ∧ queue_name q = queueName.
Proof.
  intros Hok. unfold getQueue.
  destruct (queues w !! queueName) as [q|] eqn:Hq; simpl.
  - split; [exact Hok|]. exists q. split; [reflexivity|]. exact (Hok _ _ Hq).
  - split; [|eauto]. intros n q'. simpl. rewrite lookup_insert.
    case_decide as Hn.
    + intros [= <-]. simpl. exact Hn.
    + apply Hok.
Qed.

(** X15.  The cached queue handles keep the names they are cached under,
    across [performIn] with any adapter, and so with the Redis adapter the
    submission goes to the queue named by the class, or to ['default']
    when the class has the empty name for its queue. *)
Theorem submission_goes_to_named_queue c C delayMs args w :
  queues_ok w ->
  classes w !! c = Some C ->
  let w' := (performIn c delayMs args w).1 in
  queues_ok w'
  ∧ (queueAdapter (currentConfig w) = "redis" ->
     ∃ s, add_calls (broker w') = add_calls (broker w) ++ [s]
        ∧ queue_name (to_queue s) = (if decide (queue C = "") then "default" else queue C)).
Proof.
  intros Hok Hc. cbv zeta. split.
  - rewrite (performIn_unfold _ _ _ _ _ Hc). unfold bind.
    destruct (getAdapter_frame w) as (_ & _ & Hqs & _).
    destruct (getAdapter w) as [w0 [[|]|e]]; simpl in *.
    + destruct (InlineAdapter_enqueue_frame C
                  (request C (currentConfig w) (Some delayMs) args) w0)
        as (_ & _ & Hqs' & _).
      unfold queues_ok. rewrite Hqs', Hqs. exact Hok.
    + unfold RedisAdapter.enqueue, bind, gets, ret, Queue_add. simpl.
      assert (Hok0 : queues_ok w0) by (unfold queues_ok; rewrite Hqs; exact Hok).
      destruct (getQueue_queues_ok (or_string (queue C) "default") w0 Hok0)
        as (Hok1 & q & Hret & _).
      destruct (getQueue (or_string (queue C) "default") w0) as [w1 o]. simpl in *.
      subst o. simpl. destruct (reachable (broker w1)); exact Hok1.
    + unfold queues_ok. rewrite Hqs. exact Hok.
  - intros Hkind.
    destruct (performIn_with_redis c C delayMs args w Hkind Hc)
      as (_ & _ & q & Hq & Hadd).
    eexists. split; [exact Hadd|]. simpl.
    assert (Hok' : queues_ok (performIn c delayMs args w).1).
    { rewrite (performIn_unfold _ _ _ _ _ Hc). unfold bind.
      rewrite (getAdapter_redis _ Hkind). simpl.
      unfold RedisAdapter.enqueue, bind, gets, ret, Queue_add. simpl.
      assert (Hok0 : queues_ok (with_adapters (inlineAdapter w) true w)) by exact Hok.
      destruct (getQueue_queues_ok (or_string (queue C) "default") _ Hok0)
        as (Hok1 & q1 & Hret & _).
      destruct (getQueue (or_string (queue C) "default") _) as [w1 o]. simpl in *.
      subst o. simpl. destruct (reachable (broker w1)); exact Hok1. }
    rewrite (Hok' _ _ Hq). reflexivity.
Qed.

Lemma submission_goes_to_named_queue_witness :
  let w := (config.set_queueAdapter (VStr "redis") (fresh_world [Mailer] 0)).1 in
  ∃ s, add_calls (broker (performIn 0 2000 [] w).1) = [s]
     ∧ queue_name (to_queue s) = "mailers".
Proof.
  cbv zeta.
  assert (Hok : queues_ok (config.set_queueAdapter (VStr "redis")
                             (fresh_world [Mailer] 0)).1).
  { intros n q Hq. simpl in Hq. rewrite lookup_empty in Hq. discriminate Hq. }
  destruct (submission_goes_to_named_queue 0 Mailer 2000 []
              (config.set_queueAdapter (VStr "redis") (fresh_world [Mailer] 0)).1
              Hok eq_refl) as [_ Hs].
  exact (Hs eq_refl).
Defined.

(** ** The worker: registry and processing *)

(** What a write of [_filePath] on the class [c] does to the class [d]. *)
Lemma write_filePath_lookup c path cs d :
  write_filePath c path cs !! d
  = (fun D => if decide (d = c) then with_filePath true path D
              else if reads_filePath_of cs (length cs) d c
                   then with_filePath (own_filePath D) path D
                   else D) <$> cs !! d.
Proof. unfold write_filePath. apply list_lookup_imap. Qed.

Lemma write_filePath_at c path cs C :
  cs !! c = Some C ->
  write_filePath c path cs !! c = Some (with_filePath true path C).
Proof.
  intros Hc. rewrite write_filePath_lookup, Hc. simpl.
  rewrite decide_True by reflexivity. reflexivity.
Qed.

Lemma write_filePath_same_but_path c path cs d D :
  cs !! d = Some D ->
  ∃ D', write_filePath c path cs !! d = Some D' ∧ same_but_path D D'.
Proof.
  intros Hd. rewrite write_filePath_lookup, Hd. simpl.
  eexists. split; [reflexivity|].
  case_decide; [repeat split|]. destruct (reads_filePath_of _ _ _ _); repeat split.
Qed.

Lemma length_write_filePath c path cs : length (write_filePath c path cs) = length cs.
Proof. unfold write_filePath. apply length_imap. Qed.

(** A class with its own [_filePath] reads the field from no other class;
    a class without one that extends [c] reads it from [c]. *)
Lemma reads_filePath_of_own cs d c D :
  d ≠ c -> cs !! d = Some D -> own_filePath D = true ->
  reads_filePath_of cs (length cs) d c = false.
Proof.
  intros Hne Hd Hown. destruct (length cs) as [|fuel]; simpl;
    rewrite decide_False by exact Hne; [reflexivity|].
  rewrite Hd, Hown. reflexivity.
Qed.

Lemma reads_filePath_of_child cs d c D :
  d ≠ c -> cs !! d = Some D -> own_filePath D = false -> extends D = Some c ->
  reads_filePath_of cs (length cs) d c = true.
Proof.
  intros Hne Hd Hown Hext.
  assert (Hlen : (0 < length cs)%nat) by (apply lookup_lt_Some in Hd; lia).
  destruct (length cs) as [|fuel]; [lia|]. simpl.
  rewrite decide_False by exact Hne. rewrite Hd, Hown, Hext.
  destruct fuel; simpl; rewrite decide_True by reflexivity; reflexivity.
Qed.

Lemma registerJob_unfold c C filePath w :
  classes w !! c = Some C ->
  registerJob c filePath w
  = (with_jobRegistry (insert (name C) c)
       (with_classes (write_filePath c filePath) w),
     Returned tt).
Proof.
  intros Hc. unfold registerJob, bind, class_of, modify. rewrite Hc. reflexivity.
Qed.

(** X16.  [registerJob] records the class under its name and writes its
    [_filePath], to [null] when no path is given, whatever path the class
    had; the field becomes an own field of the class and the rest of the
    class is untouched.  Of the other classes, those that read their
    [_filePath] from the class (a subclass without a [_filePath] of its own
    for one) read the new value, and all others, those with a [_filePath]
    of their own among them, are as they were; the other names of the
    registry are untouched. *)
Theorem registerJob_effect c C filePath w :
  classes w !! c = Some C ->
  let w' := (registerJob c filePath w).1 in
  (∃ C', classes w' !! c = Some C' ∧ same_but_path C C'
         ∧ _filePath C' = filePath ∧ own_filePath C' = true)
  ∧ (∀ d D, d ≠ c -> classes w !! d = Some D ->
       own_filePath D = false -> extends D = Some c ->
       ∃ D', classes w' !! d = Some D' ∧ same_but_path D D'
             ∧ _filePath D' = filePath ∧ own_filePath D' = false)
  ∧ (∀ d D, d ≠ c -> classes w !! d = Some D ->
       classes w' !! d
       = Some (if reads_filePath_of (classes w) (length (classes w)) d c
               then with_filePath (own_filePath D) filePath D
               else D))
  ∧ (∀ d D, d ≠ c -> classes w !! d = Some D -> own_filePath D = true ->
       classes w' !! d = Some D)
  ∧ jobRegistry w' !! name C = Some c
  ∧ (∀ other, other ≠ name C -> jobRegistry w' !! other = jobRegistry w !! other)
  ∧ currentConfig w' = currentConfig w
  ∧ broker w' = broker w.
Proof.
  intros Hc. cbv zeta. rewrite (registerJob_unfold _ _ _ _ Hc). simpl.
  assert (Hother : ∀ d D, d ≠ c -> classes w !! d = Some D ->
            write_filePath c filePath (classes w) !! d
            = Some (if reads_filePath_of (classes w) (length (classes w)) d c
                    then with_filePath (own_filePath D) filePath D
                    else D)).
  { intros d D Hne Hd. rewrite write_filePath_lookup, Hd. simpl.
    rewrite decide_False by exact Hne. reflexivity. }
  split; [|split; [|split; [|split; [|split; [|split]]]]].
  - eexists. split; [apply write_filePath_at, Hc|]. repeat split.
  - intros d D Hne Hd Hown Hext. rewrite (Hother d D Hne Hd).
    rewrite (reads_filePath_of_child _ _ _ _ Hne Hd Hown Hext).
    eexists. split; [reflexivity|]. split; [repeat split|].
    split; [reflexivity | exact Hown].
  - exact Hother.
  - intros d D Hne Hd Hown. rewrite (Hother d D Hne Hd).
    rewrite (reads_filePath_of_own _ _ _ _ Hne Hd Hown). reflexivity.
  - apply lookup_insert_eq.
  - intros other Hne. apply lookup_insert_ne. auto.
  - auto.
Qed.

(** The theorem at a class and a subclass of it: registering the class
    with a path, the subclass reads the path too; registering it again
    without one erases the path. *)
Lemma registerJob_effect_witness :
  let w := (registerJob 0 (Some "/jobs/c.js")
              (fresh_world [Greet; ChildOf 0 Greet "Child"] 0)).1 in
  (∃ D', classes w !! 1%nat = Some D' ∧ same_but_path (ChildOf 0 Greet "Child") D'
         ∧ _filePath D' = Some "/jobs/c.js" ∧ own_filePath D' = false)
  ∧ (_filePath <$> classes w !! 0%nat) = Some (Some "/jobs/c.js")
  ∧ (_filePath <$> classes (registerJob 0 None w).1 !! 0%nat) = Some None.
Proof.
  cbv zeta.
  destruct (registerJob_effect 0 Greet (Some "/jobs/c.js")
              (fresh_world [Greet; ChildOf 0 Greet "Child"] 0) eq_refl)
    as (_ & Hchild & _).
  split; [|split; reflexivity].
  apply (Hchild 1%nat (ChildOf 0 Greet "Child")); [discriminate|reflexivity..].
Defined.

(** X17.  A job whose class name is not in the registry fails the
    attempt with an error, before any instance is made: nothing is called
    and the process is as it was. *)
Theorem processJob_unregistered bullJob w :
  jobRegistry w !! jobClassName (bull_data bullJob) = None ->
  ∃ message, processJob bullJob w = (w, Thrown (VError message)).
Proof.
  intros Hnone. unfold processJob, bind, gets, throw. simpl. rewrite Hnone.
  eexists. reflexivity.
Qed.

Lemma processJob_unregistered_witness :
  ∃ message,
    processJob {| bull_id := "7";
                  bull_data := {| jobClassName := "Ghost"; jobClassPath := None;
                                  data_args := [] |};
                  attemptsMade := 0 |}
               (fresh_world [Greet] 0)
    = (fresh_world [Greet] 0, Thrown (VError message)).
Proof.
  apply processJob_unregistered. reflexivity.
Defined.

(** X18.  For a registered class name, [processJob] runs [performNow] of
    the registered class on a new instance that carries the broker's job id
    and, as attempt number, the attempts made plus one, with the arguments
    of the payload; its result or error is that of [performNow], and
    nothing else of the process changes. *)
Theorem processJob_runs_registered_class bullJob c C w :
  jobRegistry w !! jobClassName (bull_data bullJob) = Some c ->
  classes w !! c = Some C ->
  let args := data_args (bull_data bullJob) in
  let w' := (processJob bullJob w).1 in
  attemptNumber (worker_instance bullJob) = attemptsMade bullJob + 1
  ∧ jobId (worker_instance bullJob) = Some (bull_id bullJob)
  ∧ (processJob bullJob w).2 = performNow_outcome C args (worker_instance bullJob)
  ∧ log w' = log w ++ performNow_calls C args (worker_instance bullJob)
  ∧ broker w' = broker w
  ∧ classes w' = classes w
  ∧ jobRegistry w' = jobRegistry w
  ∧ now w' = now w.
Proof.
  intros Hreg Hc. cbv zeta.
  unfold processJob, bind, gets, class_of, perform_on_new, ret,
    performNow_outcome, performNow_calls, worker_instance. simpl.
  rewrite Hreg. simpl. rewrite Hc. simpl.
  destruct (BaseJob.performNow C _ _) as [r [v|e]]; simpl; repeat split.
Qed.

Lemma processJob_runs_registered_class_witness :
  let w := (registerJob 0 None (fresh_world [AttemptProbe] 0)).1 in
  (processJob {| bull_id := "7";
                 bull_data := {| jobClassName := "AttemptProbe"; jobClassPath := None;
                                 data_args := [] |};
                 attemptsMade := 2 |} w).2
  = Returned (VNum 3).
Proof.
  cbv zeta.
  destruct (processJob_runs_registered_class
              {| bull_id := "7";
                 bull_data := {| jobClassName := "AttemptProbe"; jobClassPath := None;
                                 data_args := [] |};
                 attemptsMade := 2 |}
              0 (with_filePath true None AttemptProbe)
              (registerJob 0 None (fresh_world [AttemptProbe] 0)).1
              eq_refl eq_refl) as (_ & _ & Hout & _).
  rewrite Hout. reflexivity.
Defined.

Lemma performLater_redis_keeps c C args w :
  queueAdapter (currentConfig w) = "redis" ->
  classes w !! c = Some C ->
  let w' := (performLater c args w).1 in
  classes w' = classes w ∧ jobRegistry w' = jobRegistry w ∧ log w' = log w.
Proof.
  intros Hkind Hc. cbv zeta. rewrite (performLater_unfold _ _ _ _ Hc).
  unfold bind. rewrite (getAdapter_redis _ Hkind). simpl.
  destruct (RedisAdapter_enqueue_quiet C (request C (currentConfig w) None args)
              (with_adapters (inlineAdapter w) true w)) as (Hlog & _ & _ & Hreg).
  destruct (RedisAdapter_enqueue_effect C (request C (currentConfig w) None args)
              (with_adapters (inlineAdapter w) true w)) as (Hcs & _).
  auto.
Qed.

(** The run [processJob] makes for a registered class. *)
Lemma processJob_run_aux bullJob c C w :
  jobRegistry w !! jobClassName (bull_data bullJob) = Some c ->
  classes w !! c = Some C ->
  (processJob bullJob w).2
  = performNow_outcome C (data_args (bull_data bullJob)) (worker_instance bullJob)
  ∧ log (processJob bullJob w).1
    = log w ++ performNow_calls C (data_args (bull_data bullJob)) (worker_instance bullJob).
Proof.
  intros Hreg Hc.
  unfold processJob, bind, gets, class_of, perform_on_new, ret,
    performNow_outcome, performNow_calls, worker_instance. simpl.
  rewrite Hreg. simpl. rewrite Hc. simpl.
  destruct (BaseJob.performNow C _ _) as [r [v|e]]; simpl; split; reflexivity.
Qed.

(** X19.  What the Redis adapter writes, the worker reads back: after
    [registerJob] of a class and [performLater] with the Redis adapter,
    processing the payload that was submitted runs [performNow] of that
    class with the arguments given to [performLater], whatever job id and
    attempt count the broker attaches. *)
Theorem enqueue_then_process c C filePath args w :
  queueAdapter (currentConfig w) = "redis" ->
  classes w !! c = Some C ->
  let w1 := (registerJob c filePath w).1 in
  let w2 := (performLater c args w1).1 in
  ∃ s, add_calls (broker w2) = add_calls (broker w) ++ [s]
     ∧ jobClassName (data s) = name C
     ∧ jobClassPath (data s) = or_null filePath
     ∧ data_args (data s) = args
     ∧ ∀ id n,
         let bullJob := {| bull_id := id; bull_data := data s; attemptsMade := n |} in
         (processJob bullJob w2).2 = performNow_outcome C args (worker_instance bullJob)
         ∧ log (processJob bullJob w2).1
           = log w ++ performNow_calls C args (worker_instance bullJob).
Proof.
  intros Hkind Hc. cbv zeta.
  rewrite (registerJob_unfold _ _ _ _ Hc). simpl.
  set (C' := with_filePath true filePath C).
  set (w1 := with_jobRegistry (insert (name C) c)
               (with_classes (write_filePath c filePath) w)).
  assert (Hc1 : classes w1 !! c = Some C').
  { subst w1. simpl. apply write_filePath_at, Hc. }
  assert (Hkind1 : queueAdapter (currentConfig w1) = "redis") by exact Hkind.
  destruct (performLater_with_redis c C' args w1 Hkind1 Hc1) as (q & _ & Hadd).
  destruct (performLater_redis_keeps c C' args w1 Hkind1 Hc1) as (Hcs & Hreg & Hlog).
  assert (Hreg2 : jobRegistry (performLater c args w1).1 !! name C = Some c).
  { rewrite Hreg. subst w1. simpl. apply lookup_insert_eq. }
  assert (Hc2 : classes (performLater c args w1).1 !! c = Some C').
  { rewrite Hcs. exact Hc1. }
  eexists. split; [exact Hadd|]. simpl. repeat split.
  - destruct (processJob_run_aux
                {| bull_id := id;
                   bull_data := {| jobClassName := name C;
                                   jobClassPath := or_null filePath;
                                   data_args := args |};
                   attemptsMade := n |} c C' _ Hreg2 Hc2) as [Hout _].
    exact Hout.
  - destruct (processJob_run_aux
                {| bull_id := id;
                   bull_data := {| jobClassName := name C;
                                   jobClassPath := or_null filePath;
                                   data_args := args |};
                   attemptsMade := n |} c C' _ Hreg2 Hc2) as [_ Hlog2].
    rewrite Hlog2, Hlog. reflexivity.
Qed.

Lemma enqueue_then_process_witness :
  let w := (config.set_queueAdapter (VStr "redis") (fresh_world [Greet] 0)).1 in
  let w2 := (performLater 0 [VStr "zeon"] (registerJob 0 None w).1).1 in
  ∃ s, add_calls (broker w2) = [s]
     ∧ (processJob {| bull_id := "1"; bull_data := data s; attemptsMade := 0 |} w2).2
       = Returned (VObj [("greeted", VStr "zeon")]).
Proof.
  cbv zeta.
  destruct (enqueue_then_process 0 Greet None [VStr "zeon"]
              (config.set_queueAdapter (VStr "redis") (fresh_world [Greet] 0)).1
              eq_refl eq_refl) as (s & Hadd & _ & _ & _ & Hrun).
  exists s. split; [exact Hadd|].
  destruct (Hrun "1" 0) as [Hout _]. rewrite Hout. reflexivity.
Defined.

(** X20.  The registry is keyed by class name and the last registration
    wins: after two classes of one name are registered, a job of that name
    runs the class registered second. *)
Theorem registerJob_last_wins c1 c2 C1 C2 path1 path2 w :
  classes w !! c1 = Some C1 ->
  classes w !! c2 = Some C2 ->
  c1 ≠ c2 ->
  name C1 = name C2 ->
  let w' := (registerJob c2 path2 (registerJob c1 path1 w).1).1 in
  jobRegistry w' !! name C1 = Some c2
  ∧ ∀ bullJob,
      jobClassName (bull_data bullJob) = name C1 ->
      (processJob bullJob w').2
      = performNow_outcome C2 (data_args (bull_data bullJob)) (worker_instance bullJob).
Proof.
  intros Hc1 Hc2 Hne Hname. cbv zeta.
  rewrite (registerJob_unfold _ _ _ _ Hc1). simpl.
  destruct (write_filePath_same_but_path c1 path1 (classes w) c2 C2 Hc2)
    as (C2' & Hc2' & Hsame).
  set (w1 := with_jobRegistry (insert (name C1) c1)
               (with_classes (write_filePath c1 path1) w)).
  assert (Hw1 : classes w1 !! c2 = Some C2') by exact Hc2'.
  rewrite (registerJob_unfold _ _ _ _ Hw1). simpl.
  destruct Hsame as (Hext & Hn & Hq & Hr & Hb & Hperform & Hbefore & Hafter & Herror).
  assert (Hreg : <[name C2' := c2]> (<[name C1 := c1]> (jobRegistry w)) !! name C1
                 = Some c2).
  { rewrite Hn, Hname. apply lookup_insert_eq. }
  split; [exact Hreg|].
  intros bullJob Hjob.
  match goal with |- (processJob bullJob ?w0).2 = _ =>
    destruct (processJob_run_aux bullJob c2 (with_filePath true path2 C2') w0)
      as [Hout _]
  end.
  - rewrite Hjob. exact Hreg.
  - simpl. apply write_filePath_at. exact Hc2'.
  - rewrite Hout. unfold performNow_outcome, BaseJob.performNow. simpl.
    rewrite Hperform, Hbefore, Hafter, Herror. reflexivity.
Qed.

Lemma registerJob_last_wins_witness :
  let w := (registerJob 1 None (registerJob 0 None (fresh_world [Greet; OtherC] 0)).1).1 in
  (processJob {| bull_id := "1";
                 bull_data := {| jobClassName := "C"; jobClassPath := None;
                                 data_args := [VStr "zeon"] |};
                 attemptsMade := 0 |} w).2
  = Returned (VStr "the other C").
Proof.
  cbv zeta.
  destruct (registerJob_last_wins 0 1 Greet OtherC None None
              (fresh_world [Greet; OtherC] 0)
              eq_refl eq_refl ltac:(discriminate) eq_refl) as [_ Hrun].
  rewrite (Hrun {| bull_id := "1";
                   bull_data := {| jobClassName := "C"; jobClassPath := None;
                                   data_args := [VStr "zeon"] |};
                   attemptsMade := 0 |} eq_refl).
  reflexivity.
Defined.

(** ** The worker: starting and stopping *)

(** What one [startWorker] does to the map of workers and to the list of
    constructed workers. *)
Lemma startWorker_effect queueName options w :
  ∃ k, (startWorker queueName options w).2 = Returned k
     ∧ workers (startWorker queueName options w).1 !! queueName = Some k
     ∧ (∀ other, other ≠ queueName ->
          workers (startWorker queueName options w).1 !! other = workers w !! other)
     ∧ (∀ k0, workers w !! queueName = Some k0 ->
          k = k0 ∧ startWorker queueName options w = (w, Returned k0))
     ∧ (workers w !! queueName = None ->
          constructed (broker (startWorker queueName options w).1)
          = constructed (broker w) ++ [k]
          ∧ k = {| worker_id := length (constructed (broker w));
                   worker_queue := queueName;
                   worker_connection := config.connection w;
                   worker_concurrency := default 1 (concurrency options) |})
     ∧ (is_Some (workers w !! queueName) ->
          constructed (broker (startWorker queueName options w).1)
          = constructed (broker w))
     ∧ currentConfig (startWorker queueName options w).1 = currentConfig w.
Proof.
  unfold startWorker, bind, gets, new_Worker, modify, ret. simpl.
  destruct (workers w !! queueName) as [k0|] eqn:Hk; simpl.
  - exists k0. repeat split; try auto; try congruence.
  - eexists. split; [reflexivity|]. split; [apply lookup_insert_eq|].
    split; [intros other Hne; apply lookup_insert_ne; auto|].
    split; [discriminate|]. split; [auto|]. split; [|reflexivity].
    intros [k1 [=]].
Qed.

(** X21.  [startWorkers] returns one worker per given name, in order, and
    each is the worker recorded for its name afterwards (the same worker
    for a name given twice); workers that were running keep running, and
    names that were not given are as they were. *)
Theorem startWorkers_all_running queueNames options w :
  let w' := (startWorkers queueNames options w).1 in
  ∃ ks, (startWorkers queueNames options w).2 = Returned ks
      ∧ Forall2 (fun queueName k => workers w' !! queueName = Some k) queueNames ks
      ∧ (∀ q k, workers w !! q = Some k -> workers w' !! q = Some k)
      ∧ (∀ q, q ∉ queueNames -> workers w' !! q = workers w !! q).
Proof.
  cbv zeta. revert w. induction queueNames as [|n rest IH]; intros w.
  - exists []. simpl. split; [reflexivity|]. split; [constructor|]. auto.
  - destruct (startWorker_effect n options w)
      as (k & Hret & Hk & Hother & Hsame & _).
    simpl. unfold bind.
    destruct (startWorker n options w) as [w1 o1]. simpl in *. subst o1.
    destruct (IH w1) as (ks & Hks & Hall & Hmono & Hout).
    destruct (startWorkers rest options w1) as [w2 o2]. simpl in *. subst o2.
    exists (k :: ks). simpl. split; [reflexivity|]. split; [|split].
    + constructor; [apply Hmono, Hk | exact Hall].
    + intros q k0 Hq. apply Hmono.
      destruct (decide (q = n)) as [->|Hne].
      * destruct (Hsame _ Hq) as [<- _]. exact Hk.
      * rewrite Hother by exact Hne. exact Hq.
    + intros q Hq. apply not_elem_of_cons in Hq as [Hne Hq].
      rewrite Hout by exact Hq. apply Hother, Hne.
Qed.

(** X22.  While starting workers, every worker of the map serves the
    queue it is recorded under and is among the workers constructed; this
    holds of a new process and is kept by [startWorkers] and
    [stopWorkers]. *)
Theorem workers_stay_well_formed queueNames options w :
  workers_ok w ->
  workers_ok (startWorkers queueNames options w).1
  ∧ workers_ok (stopWorkers w).1.
Proof.
  intros Hok. split.
  - revert w Hok. induction queueNames as [|n rest IH]; intros w Hok; [exact Hok|].
    simpl. unfold bind.
    assert (Hok1 : workers_ok (startWorker n options w).1).
    { unfold startWorker, bind, gets, new_Worker, modify, ret. simpl.
      destruct (workers w !! n) as [k0|] eqn:Hk; simpl; [exact Hok|].
      intros q k. simpl. rewrite lookup_insert. case_decide as Hq.
      - intros [= <-]. simpl. split; [exact Hq|]. apply elem_of_app. right.
        apply list_elem_of_singleton. reflexivity.
      - intros Hlook. destruct (Hok _ _ Hlook) as [Hname Hin].
        split; [exact Hname|]. apply elem_of_app. left. exact Hin. }
    destruct (startWorker_effect n options w) as (k & Hret & _).
    destruct (startWorker n options w) as [w1 o1]. simpl in *. subst o1.
    specialize (IH w1 Hok1).
    destruct (startWorkers rest options w1) as [w2 [ks|e]]; exact IH.
  - intros q k. unfold stopWorkers, modify. simpl. rewrite lookup_empty. discriminate.
Qed.

Lemma workers_stay_well_formed_witness :
  workers_ok (startWorkers ["default"; "mailers"; "default"]
                {| concurrency := Some 2 |} (fresh_world [] 0)).1.
Proof.
  assert (Hok : workers_ok (fresh_world [] 0)).
  { intros q k Hq. simpl in Hq. rewrite lookup_empty in Hq. discriminate Hq. }
  exact (proj1 (workers_stay_well_formed ["default"; "mailers"; "default"]
                  {| concurrency := Some 2 |} (fresh_world [] 0) Hok)).
Defined.

(** X23.  [startWorkers] constructs one worker for each distinct queue
    name given that had no worker running, and none for the others: a name
    given twice, or already served, does not get a second worker. *)
Theorem startWorkers_constructs_once_per_queue queueNames options w :
  length (constructed (broker (startWorkers queueNames options w).1))
  = (length (constructed (broker w))
     + size (list_to_set queueNames ∖ dom (workers w) : gset string))%nat.
Proof.
  revert w. induction queueNames as [|n rest IH]; intros w.
  - simpl. rewrite difference_disjoint_L by apply disjoint_empty_l.
    rewrite size_empty. lia.
  - simpl. unfold bind.
    destruct (startWorker_effect n options w) as (k & Hret & _).
    assert (Hstep :
      (length (constructed (broker (startWorker n options w).1))
       + size (list_to_set rest ∖ dom (workers (startWorker n options w).1) : gset string)
       = length (constructed (broker w))
         + size (({[n]} ∪ list_to_set rest) ∖ dom (workers w) : gset string))%nat).
    { unfold startWorker, bind, gets, new_Worker, modify, ret. simpl.
      destruct (workers w !! n) as [k0|] eqn:Hk; simpl.
      - assert (Hin : n ∈ dom (workers w)) by (apply elem_of_dom; eauto).
        f_equal. f_equal. apply set_eq. intros x.
        rewrite !elem_of_difference, elem_of_union, elem_of_singleton.
        split; [tauto|]. intros [[->|Hx] Hd]; tauto.
      - assert (Hout : n ∉ dom (workers w)) by (apply not_elem_of_dom; exact Hk).
        rewrite dom_insert_L, length_app. simpl.
        assert (Heq : ({[n]} ∪ list_to_set rest) ∖ dom (workers w)
                      =@{gset string}
                      {[n]} ∪ (list_to_set rest ∖ ({[n]} ∪ dom (workers w)))).
        { clear -Hout. apply set_eq. intros x.
          rewrite !elem_of_difference, !elem_of_union, !elem_of_difference,
            !elem_of_union, !elem_of_singleton. split.
          - intros [[->|Hx] Hd]; [left; reflexivity|].
            destruct (decide (x = n)) as [->|]; [left; reflexivity | right; tauto].
          - intros [->|[Hx Hd]]; tauto. }
        assert (Hdisj : ({[n]} : gset string)
                        ## list_to_set rest ∖ ({[n]} ∪ dom (workers w))).
        { intros x Hx1 Hx2. apply elem_of_singleton in Hx1. subst x.
          apply elem_of_difference in Hx2 as [_ Hx2]. apply Hx2.
          apply elem_of_union. left. apply elem_of_singleton. reflexivity. }
        rewrite Heq, (size_union _ _ Hdisj), size_singleton. lia. }
    destruct (startWorker n options w) as [w1 o1]. simpl in *. subst o1.
    specialize (IH w1).
    destruct (startWorkers rest options w1) as [w2 [ks|e]]; simpl in *; lia.
Qed.

(** X24.  [stopWorkers] empties the map of workers and leaves the rest of
    the process alone (with no worker running it changes nothing); a
    [startWorker] after it constructs a new worker, also for a queue that
    was served before. *)
Theorem stopWorkers_then_start queueName options w :
  let w1 := (stopWorkers w).1 in
  workers w1 = ∅
  ∧ broker w1 = broker w
  ∧ currentConfig w1 = currentConfig w
  ∧ jobRegistry w1 = jobRegistry w
  ∧ (workers w = ∅ -> stopWorkers w = (w, Returned tt))
  ∧ ∃ k, (startWorker queueName options w1).2 = Returned k
       ∧ worker_id k = length (constructed (broker w))
       ∧ constructed (broker (startWorker queueName options w1).1)
         = constructed (broker w) ++ [k].
Proof.
  cbv zeta. unfold stopWorkers, modify. simpl.
  split; [reflexivity|]. split; [reflexivity|]. split; [reflexivity|].
  split; [reflexivity|]. split.
  - intros Hempty. destruct w. simpl in *. subst. reflexivity.
  - unfold startWorker, bind, gets, new_Worker, modify, ret. simpl.
    rewrite lookup_empty. simpl. eexists. repeat split.
Qed.

Lemma stopWorkers_then_start_witness :
  stopWorkers (fresh_world [] 0) = (fresh_world [] 0, Returned tt).
Proof.
  destruct (stopWorkers_then_start "default" {| concurrency := None |} (fresh_world [] 0))
    as (_ & _ & _ & _ & Hnoop & _).
  apply Hnoop. reflexivity.
Defined.

(** ** The loader *)

Lemma same_but_path_trans C1 C2 C3 :
  same_but_path C1 C2 -> same_but_path C2 C3 -> same_but_path C1 C3.
Proof.
  intros (? & ? & ? & ? & ? & ? & ? & ? & ?) (? & ? & ? & ? & ? & ? & ? & ? & ?).
  repeat split; congruence.
Qed.

Lemma write_filePath_keeps c0 path cs c C :
  (∃ C', cs !! c = Some C' ∧ same_but_path C C') ->
  ∃ C', write_filePath c0 path cs !! c = Some C' ∧ same_but_path C C'.
Proof.
  intros (C1 & Hc & Hsame).
  destruct (write_filePath_same_but_path c0 path cs c C1 Hc) as (C2 & Hc2 & Hsame2).
  exists C2. split; [exact Hc2 | eapply same_but_path_trans; eassumption].
Qed.

(** The process after the loop body has loaded the class [c] from a file. *)
Lemma load_file_class_unfold host jobsDir rg rw file module c C p :
  dynamic_import host (pathToFileURL host (join host jobsDir file)) = Returned module ->
  find_JobClass module = ExportClass c ->
  classes (world p) !! c = Some C ->
  let filePath := join host jobsDir file in
  let w1 := with_classes (write_filePath c (Some filePath)) (world p) in
  load_file host jobsDir rg rw file p
  = ({| world := if rw
                 then with_jobRegistry (insert (name C) c)
                        (with_classes (write_filePath c (Some filePath)) w1)
                 else w1;
        loadedJobs := <[name C := c]> (loadedJobs p);
        globalThis := if rg then <[name C := GlobalClass c]> (globalThis p)
                      else globalThis p;
        imported := imported p ++ [pathToFileURL host filePath] |},
     Returned tt).
Proof.
  intros Himport Hfind Hc. cbv zeta.
  assert (Hc1 : classes (with_classes (write_filePath c (Some (join host jobsDir file)))
                           (world p)) !! c
                = Some (with_filePath true (Some (join host jobsDir file)) C)).
  { simpl. apply write_filePath_at, Hc. }
  assert (Hc2 : write_filePath c (Some (join host jobsDir file))
                  (write_filePath c (Some (join host jobsDir file)) (classes (world p))) !! c
                = Some (with_filePath true (Some (join host jobsDir file))
                          (with_filePath true (Some (join host jobsDir file)) C))).
  { apply write_filePath_at, write_filePath_at, Hc. }
  unfold load_file, try_catch, bind. cbn [fst snd]. rewrite Himport. rewrite Hfind.
  unfold in_world, assign_filePath, modify, ret, bind. cbn [world loadedJobs globalThis imported].
  destruct rw.
  - rewrite (registerJob_unfold _ _ _ _ Hc1). unfold class_of.
    cbn [classes with_jobRegistry with_classes world]. rewrite Hc2.
    destruct rg; reflexivity.
  - unfold class_of. cbn [world loadedJobs globalThis imported]. rewrite Hc1.
    destruct rg; reflexivity.
Qed.

Lemma load_file_frame host jobsDir rg rw file p :
  ∃ p', (if rejects_nullish host jobsDir file
         then ∃ message,
                load_file host jobsDir rg rw file p = (p', Thrown (VError message))
         else load_file host jobsDir rg rw file p = (p', Returned tt))
      ∧ imported p' = imported p ++ [pathToFileURL host (join host jobsDir file)]
      ∧ (∀ name, is_Some (loadedJobs p !! name) -> is_Some (loadedJobs p' !! name))
      ∧ (rg = false -> globalThis p' = globalThis p)
      ∧ (rw = false -> jobRegistry (world p') = jobRegistry (world p))
      ∧ (∀ c C, (∃ C', classes (world p) !! c = Some C' ∧ same_but_path C C') ->
                ∃ C', classes (world p') !! c = Some C' ∧ same_but_path C C')
      ∧ currentConfig (world p') = currentConfig (world p)
      ∧ broker (world p') = broker (world p).
Proof.
  unfold rejects_nullish.
  destruct (dynamic_import host (pathToFileURL host (join host jobsDir file)))
    as [module|e] eqn:Himport.
  2: { unfold load_file, try_catch, bind. cbn [fst snd]. rewrite Himport.
       destruct e; eexists; (split; [try (eexists; reflexivity); reflexivity|]);
         simpl; repeat split; auto. }
  destruct (find_JobClass module) as [c0|prim] eqn:Hfind.
  2: { unfold load_file, try_catch, bind. cbn [fst snd]. rewrite Himport, Hfind.
       destruct (truthy prim); simpl; eexists; (split; [reflexivity|]); simpl;
         repeat split; auto. }
  destruct (classes (world p) !! c0) as [C0|] eqn:Hc0.
  - rewrite (load_file_class_unfold _ _ _ _ _ _ _ _ _ Himport Hfind Hc0).
    eexists. split; [reflexivity|]. cbn [world loadedJobs globalThis imported].
    split; [reflexivity|].
    split; [intros n Hn; apply lookup_insert_is_Some'; right; exact Hn|].
    split; [intros ->; reflexivity|]. split; [intros ->; reflexivity|].
    split; [|destruct rw; split; reflexivity].
    intros c C HC. destruct rw; cbn [classes with_jobRegistry with_classes];
      repeat apply write_filePath_keeps; exact HC.
  - unfold load_file, try_catch, bind. cbn [fst snd]. rewrite Himport, Hfind.
    unfold in_world, assign_filePath, registerJob, class_of, modify, ret, bind.
    cbn [world loadedJobs globalThis imported classes with_classes].
    assert (Hnone : write_filePath c0 (Some (join host jobsDir file))
                      (classes (world p)) !! c0 = None).
    { rewrite write_filePath_lookup, Hc0. reflexivity. }
    destruct rw; cbn; rewrite ?Hnone; cbn; rewrite ?Hnone; cbn; (eexists; split; [reflexivity|]);
      cbn [world loadedJobs globalThis imported classes with_classes];
      (split; [reflexivity|]); (split; [auto|]); (split; [auto|]); (split; [auto|]);
      (split; [intros c C HC; apply write_filePath_keeps; exact HC|]);
      split; reflexivity.
Qed.

Lemma load_files_frame host jobsDir rg rw files p :
  ∃ p', (if existsb (rejects_nullish host jobsDir) files
         then ∃ message,
                load_files host jobsDir rg rw files p = (p', Thrown (VError message))
         else load_files host jobsDir rg rw files p = (p', Returned tt))
      ∧ imported p'
        = imported p ++ map (fun f => pathToFileURL host (join host jobsDir f))
                            (attempted host jobsDir files)
      ∧ (∀ name, is_Some (loadedJobs p !! name) -> is_Some (loadedJobs p' !! name))
      ∧ (rg = false -> globalThis p' = globalThis p)
      ∧ (rw = false -> jobRegistry (world p') = jobRegistry (world p))
      ∧ (∀ c C, (∃ C', classes (world p) !! c = Some C' ∧ same_but_path C C') ->
                ∃ C', classes (world p') !! c = Some C' ∧ same_but_path C C')
      ∧ currentConfig (world p') = currentConfig (world p)
      ∧ broker (world p') = broker (world p).
Proof.
  revert p. induction files as [|file rest IH]; intros p.
  - exists p. simpl. rewrite app_nil_r. repeat split; auto.
  - destruct (load_file_frame host jobsDir rg rw file p)
      as (p1 & Hrun & Himp & Hmono & Hg & Hr & Hcls & Hcfg & Hbroker).
    cbn [existsb attempted load_files]. unfold bind.
    destruct (rejects_nullish host jobsDir file).
    + destruct Hrun as [message Hrun]. exists p1. rewrite Hrun. cbn [orb].
      split; [exists message; reflexivity|]. auto 10.
    + destruct (IH p1)
        as (p2 & Hrun2 & Himp2 & Hmono2 & Hg2 & Hr2 & Hcls2 & Hcfg2 & Hbroker2).
      exists p2. rewrite Hrun. cbn [orb].
      split; [exact Hrun2|].
      split; [rewrite Himp2, Himp, <- app_assoc; reflexivity|].
      split; [auto|]. split; [intros H; rewrite Hg2, Hg; auto|].
      split; [intros H; rewrite Hr2, Hr; auto|].
      split; [auto|]. split; congruence.
Qed.

Lemma attempted_all host jobsDir files :
  existsb (rejects_nullish host jobsDir) files = false ->
  attempted host jobsDir files = files.
Proof.
  induction files as [|file rest IH]; [reflexivity|]. simpl.
  intros [Hfile Hrest]%orb_false_iff. rewrite Hfile, IH by exact Hrest. reflexivity.
Qed.

Lemma attempted_subseteq host jobsDir files file :
  file ∈ attempted host jobsDir files -> file ∈ files.
Proof.
  induction files as [|f rest IH]; simpl; [auto|].
  intros [->|Hin]%elem_of_cons; [apply list_elem_of_here|].
  apply list_elem_of_further.
  destruct (rejects_nullish host jobsDir f); [|auto].
  apply elem_of_nil in Hin. destruct Hin.
Qed.

(** The job files up to and including the first whose import rejects with
    [undefined] or [null]. *)
Lemma attempted_stops host jobsDir before file after :
  existsb (rejects_nullish host jobsDir) before = false ->
  rejects_nullish host jobsDir file = true ->
  attempted host jobsDir (before ++ file :: after) = before ++ [file].
Proof.
  intros Hbefore Hfile. induction before as [|f rest IH]; simpl.
  - rewrite Hfile. reflexivity.
  - simpl in Hbefore. apply orb_false_iff in Hbefore as [Hf Hrest].
    rewrite Hf, IH by exact Hrest. reflexivity.
Qed.

Lemma load_files_app host jobsDir rg rw files1 files2 p :
  existsb (rejects_nullish host jobsDir) files1 = false ->
  load_files host jobsDir rg rw (files1 ++ files2) p
  = load_files host jobsDir rg rw files2 (load_files host jobsDir rg rw files1 p).1.
Proof.
  revert p. induction files1 as [|file rest IH]; intros p Hok; [reflexivity|].
  simpl in Hok. apply orb_false_iff in Hok as [Hfile Hrest].
  simpl. unfold bind.
  destruct (load_file_frame host jobsDir rg rw file p) as (p1 & Hrun & _).
  rewrite Hfile in Hrun. rewrite Hrun. apply IH, Hrest.
Qed.


Lemma rejects_nullish_false host jobsDir files :
  (∀ file, file ∈ files ->
     dynamic_import host (pathToFileURL host (join host jobsDir file)) ≠ Thrown VUndefined
     ∧ dynamic_import host (pathToFileURL host (join host jobsDir file)) ≠ Thrown VNull) ->
  existsb (rejects_nullish host jobsDir) files = false.
Proof.
  induction files as [|f rest IH]; intros Hall; [reflexivity|]. simpl.
  rewrite IH by (intros file Hin; apply Hall, list_elem_of_further, Hin).
  destruct (Hall f (list_elem_of_here _ _)) as [Hu Hn]. unfold rejects_nullish.
  destruct (dynamic_import host _) as [module|[]]; try reflexivity; congruence.
Qed.

Lemma rejects_nullish_true host jobsDir file :
  dynamic_import host (pathToFileURL host (join host jobsDir file)) = Thrown VUndefined
  ∨ dynamic_import host (pathToFileURL host (join host jobsDir file)) = Thrown VNull ->
  rejects_nullish host jobsDir file = true.
Proof. unfold rejects_nullish. intros [-> | ->]; reflexivity. Qed.

Lemma existsb_rejects_middle host jobsDir before file after :
  rejects_nullish host jobsDir file = true ->
  existsb (rejects_nullish host jobsDir) (before ++ file :: after) = true.
Proof.
  intros Hfile. rewrite existsb_app. simpl. rewrite Hfile.
  rewrite orb_true_r. reflexivity.
Qed.

(** X25.  A jobs directory that does not exist is no error: [loadJobs]
    returns the map of loaded jobs as it is and changes nothing; any other
    failure of [readdir] is raised to the caller. *)
Theorem loadJobs_missing_directory host jobsDir options error p :
  readdir host jobsDir = Thrown error ->
  (error_code_is error "ENOENT" = Returned true ->
     loadJobs host jobsDir options p = (p, Returned (loadedJobs p)))
  ∧ (error_code_is error "ENOENT" = Returned false ->
     loadJobs host jobsDir options p = (p, Thrown error)).
Proof.
  intros Hdir. unfold loadJobs. rewrite Hdir. split; intros ->; reflexivity.
Qed.

Lemma loadJobs_missing_directory_witness :
  loadJobs demo_host "/nowhere" {| global := None; registerWorker := None |}
    (fresh_process [Greet; SendWelcome])
  = (fresh_process [Greet; SendWelcome], Returned ∅).
Proof.
  destruct (loadJobs_missing_directory demo_host "/nowhere"
              {| global := None; registerWorker := None |}
              (VObj [("code", VStr "ENOENT")])
              (fresh_process [Greet; SendWelcome]) eq_refl) as [Hmissing _].
  exact (Hmissing eq_refl).
Defined.

(** X26.  Once the directory has been read, [loadJobs] imports the [.js]
    and [.mjs] files of the listing, in order.  A file whose import fails
    with an error, or that exports no job class, does not stop the others:
    when no import rejects with [undefined] or [null], every job file is
    imported and the map of loaded jobs is returned.  At the first job
    file whose import rejects with [undefined] or [null] the handler of
    the loop fails reading the message of the error: [loadJobs] raises
    that error and the files after it are not imported.  In either case no
    name has been removed from the map of loaded jobs, and the
    configuration and the broker are as they were. *)
Theorem loadJobs_imports_every_job_file host jobsDir options files p :
  readdir host jobsDir = Returned files ->
  let url := fun file => pathToFileURL host (join host jobsDir file) in
  let nullish := fun file => dynamic_import host (url file) = Thrown VUndefined
                             ∨ dynamic_import host (url file) = Thrown VNull in
  let jobFiles := List.filter is_job_file files in
  let p' := (loadJobs host jobsDir options p).1 in
  ((∀ file, file ∈ jobFiles -> ¬ nullish file) ->
     (loadJobs host jobsDir options p).2 = Returned (loadedJobs p')
     ∧ imported p' = imported p ++ map url jobFiles)
  ∧ (∀ before file after,
       jobFiles = before ++ file :: after ->
       (∀ earlier, earlier ∈ before -> ¬ nullish earlier) ->
       nullish file ->
       (∃ message, (loadJobs host jobsDir options p).2 = Thrown (VError message))
       ∧ imported p' = imported p ++ map url (before ++ [file]))
  ∧ (∀ name, is_Some (loadedJobs p !! name) -> is_Some (loadedJobs p' !! name))
  ∧ currentConfig (world p') = currentConfig (world p)
  ∧ broker (world p') = broker (world p).
Proof.
  intros Hdir. cbv zeta. unfold loadJobs. rewrite Hdir. unfold bind, gets.
  destruct (load_files_frame host jobsDir (default true (global options))
              (default true (registerWorker options))
              (List.filter is_job_file files) p)
    as (p1 & Hrun & Himp & Hmono & _ & _ & _ & Hcfg & Hbroker).
  assert (Hfalse : ∀ l : list string,
            (∀ file, file ∈ l ->
               ¬ (dynamic_import host (pathToFileURL host (join host jobsDir file))
                  = Thrown VUndefined
                  ∨ dynamic_import host (pathToFileURL host (join host jobsDir file))
                    = Thrown VNull)) ->
            existsb (rejects_nullish host jobsDir) l = false).
  { intros l Hall. apply rejects_nullish_false. intros file Hin.
    specialize (Hall file Hin). tauto. }
  split; [|split].
  - intros Hall. rewrite (Hfalse _ Hall) in Hrun.
    rewrite (attempted_all _ _ _ (Hfalse _ Hall)) in Himp.
    rewrite Hrun. simpl. auto.
  - intros before file after Hfiles Hbefore Hfile. rewrite Hfiles in *.
    apply rejects_nullish_true in Hfile.
    rewrite (existsb_rejects_middle _ _ _ _ _ Hfile) in Hrun.
    rewrite (attempted_stops _ _ _ _ _ (Hfalse _ Hbefore) Hfile) in Himp.
    destruct Hrun as [message Hrun]. rewrite Hrun. simpl. eauto.
  - destruct (existsb _ _); [destruct Hrun as [message Hrun]|]; rewrite Hrun; simpl; auto.
Qed.

Lemma loadJobs_imports_every_job_file_witness :
  let options := {| global := None; registerWorker := None |} in
  let p1 := (loadJobs demo_host "/app/jobs" options
               (fresh_process [Greet; SendWelcome])).1 in
  let run2 := loadJobs rejecting_host "/app/jobs" options
                (fresh_process [Greet; SendWelcome]) in
  (imported p1
   = ["file:///app/jobs/broken.js"; "file:///app/jobs/c.js";
      "file:///app/jobs/send-welcome.js"]
   ∧ loadedJobs p1 !! "C" = Some 0%nat)
  ∧ (run2.2 = Thrown (VError "Cannot read properties of undefined (reading 'message')")
     ∧ imported run2.1 = ["file:///app/jobs/broken.js"]
     ∧ loadedJobs run2.1 !! "C" = None).
Proof.
  cbv zeta. split.
  - destruct (loadJobs_imports_every_job_file demo_host "/app/jobs"
                {| global := None; registerWorker := None |}
                ["README.md"; "broken.js"; "c.js"; "send-welcome.js"]
                (fresh_process [Greet; SendWelcome]) eq_refl) as (Hall & _).
    destruct Hall as [_ Himp].
    + intros file Hin.
      apply list_elem_of_In in Hin. simpl in Hin.
      destruct Hin as [<-|[<-|[<-|[]]]]; intros [H|H]; vm_compute in H; discriminate H.
    + split; [exact Himp | reflexivity].
  - destruct (loadJobs_imports_every_job_file rejecting_host "/app/jobs"
                {| global := None; registerWorker := None |}
                ["README.md"; "broken.js"; "c.js"; "send-welcome.js"]
                (fresh_process [Greet; SendWelcome]) eq_refl) as (_ & Hstop & _).
    destruct (Hstop [] "broken.js" ["c.js"; "send-welcome.js"] eq_refl)
      as [_ Himp].
    + intros earlier Hin. apply elem_of_nil in Hin. destruct Hin.
    + left. reflexivity.
    + split; [reflexivity|]. split; [exact Himp | reflexivity].
Defined.

Lemma substring_all s : String.substring 0 (String.length s) s = s.
Proof. induction s as [|a s IH]; simpl; [reflexivity | rewrite IH; reflexivity]. Qed.

Lemma substring_after_app pre suffix :
  String.substring (String.length pre) (String.length suffix) (pre +:+ suffix) = suffix.
Proof. induction pre as [|a pre IH]; simpl; [apply substring_all | exact IH]. Qed.

Lemma length_app_string pre suffix :
  String.length (pre +:+ suffix) = (String.length pre + String.length suffix)%nat.
Proof. induction pre as [|a pre IH]; simpl; [reflexivity | rewrite IH; reflexivity]. Qed.

Lemma split_at s m :
  (m ≤ String.length s)%nat ->
  s = String.substring 0 m s +:+ String.substring m (String.length s - m) s.
Proof.
  revert m. induction s as [|a s IH]; intros m Hm.
  - destruct m; reflexivity.
  - destruct m as [|m]; simpl.
    + rewrite substring_all. reflexivity.
    + simpl in Hm. change (String a s = String a (String.substring 0 m s +:+ String.substring m (String.length s - m) s)). f_equal. apply IH. lia.
Qed.

(** [s.endsWith(suffix)] holds exactly of the strings that are some stem
    followed by the suffix. *)
Lemma endsWith_spec s suffix :
  endsWith s suffix = true ↔ ∃ stem, s = stem +:+ suffix.
Proof.
  unfold endsWith. split.
  - case_decide as Hk; [|discriminate]. intros Heq%bool_decide_eq_true.
    exists (String.substring 0 (String.length s - String.length suffix) s).
    pose proof (split_at s (String.length s - String.length suffix)) as Hsplit.
    replace (String.length s - (String.length s - String.length suffix))%nat
      with (String.length suffix) in Hsplit by lia.
    rewrite Heq in Hsplit. apply Hsplit. lia.
  - intros [stem ->]. rewrite length_app_string.
    rewrite decide_True by lia. apply bool_decide_eq_true.
    replace (String.length stem + String.length suffix - String.length suffix)%nat
      with (String.length stem) by lia.
    apply substring_after_app.
Qed.

(** X27.  [loadJobs] imports nothing but files of the listing whose names
    end in [.js] or [.mjs], each under the URL of its path in the jobs
    directory. *)
Theorem loadJobs_imports_only_job_files host jobsDir options files p url :
  readdir host jobsDir = Returned files ->
  url ∈ imported (loadJobs host jobsDir options p).1 ->
  url ∈ imported p
  ∨ ∃ stem extension,
      extension ∈ [".js"; ".mjs"]
      ∧ stem +:+ extension ∈ files
      ∧ url = pathToFileURL host (join host jobsDir (stem +:+ extension)).
Proof.
  intros Hdir. unfold loadJobs. rewrite Hdir. unfold bind, gets.
  destruct (load_files_frame host jobsDir (default true (global options))
              (default true (registerWorker options))
              (List.filter is_job_file files) p) as (p1 & Hrun & Himp & _).
  assert (Hp1 : (load_files host jobsDir (default true (global options))
                   (default true (registerWorker options))
                   (List.filter is_job_file files) p).1 = p1).
  { destruct (existsb _ _); [destruct Hrun as [message Hrun]|]; rewrite Hrun; reflexivity. }
  destruct (load_files _ _ _ _ _ p) as [p2 [[]|e]]; simpl in Hp1; subst p2; simpl;
    rewrite Himp; intros Hin;
    (apply elem_of_app in Hin as [Hin|Hin]; [left; exact Hin|]); right;
    apply list_elem_of_fmap in Hin as (file & -> & Hfile);
    apply attempted_subseteq in Hfile;
    apply list_elem_of_In, filter_In in Hfile as [Hfile Hjs];
    apply list_elem_of_In in Hfile;
    unfold is_job_file in Hjs; apply orb_true_iff in Hjs as [Hjs|Hjs];
    apply endsWith_spec in Hjs as [stem ->].
  1,3: exists stem, ".js"; (split; [|split; [exact Hfile | reflexivity]]);
       apply list_elem_of_In; simpl; auto.
  all: exists stem, ".mjs"; (split; [|split; [exact Hfile | reflexivity]]);
       apply list_elem_of_In; simpl; auto.
Qed.

Lemma loadJobs_imports_only_job_files_witness :
  "file:///app/jobs/c.js" ∈ imported (fresh_process [Greet; SendWelcome])
  ∨ ∃ stem extension,
      extension ∈ [".js"; ".mjs"]
      ∧ stem +:+ extension ∈ ["README.md"; "broken.js"; "c.js"; "send-welcome.js"]
      ∧ "file:///app/jobs/c.js"
        = pathToFileURL demo_host (join demo_host "/app/jobs" (stem +:+ extension)).
Proof.
  apply (loadJobs_imports_only_job_files demo_host "/app/jobs"
           {| global := None; registerWorker := None |}
           ["README.md"; "broken.js"; "c.js"; "send-welcome.js"]
           (fresh_process [Greet; SendWelcome]) "file:///app/jobs/c.js" eq_refl).
  apply list_elem_of_In. vm_compute. auto.
Defined.

(** X28.  With [global: false], [loadJobs] puts nothing on [globalThis];
    with [registerWorker: false] it registers nothing with the worker. *)
Theorem loadJobs_respects_options host jobsDir options p :
  let p' := (loadJobs host jobsDir options p).1 in
  (global options = Some false -> globalThis p' = globalThis p)
  ∧ (registerWorker options = Some false ->
     jobRegistry (world p') = jobRegistry (world p)).
Proof.
  cbv zeta. unfold loadJobs.
  destruct (readdir host jobsDir) as [files|error].
  - unfold bind, gets.
    destruct (load_files_frame host jobsDir (default true (global options))
                (default true (registerWorker options))
                (List.filter is_job_file files) p)
      as (p1 & Hrun & _ & _ & Hg & Hr & _).
    assert (Hp1 : (load_files host jobsDir (default true (global options))
                     (default true (registerWorker options))
                     (List.filter is_job_file files) p).1 = p1).
    { destruct (existsb _ _); [destruct Hrun as [message Hrun]|]; rewrite Hrun; reflexivity. }
    destruct (load_files _ _ _ _ _ p) as [p2 [[]|e]]; simpl in Hp1; subst p2; simpl;
      (split; intros Hopt; [apply Hg | apply Hr]; rewrite Hopt; reflexivity).
  - destruct (error_code_is error "ENOENT") as [[|]|e]; simpl; auto.
Qed.

Lemma loadJobs_respects_options_witness :
  globalThis (loadJobs demo_host "/app/jobs"
                {| global := Some false; registerWorker := None |}
                (fresh_process [Greet; SendWelcome])).1 = ∅.
Proof.
  destruct (loadJobs_respects_options demo_host "/app/jobs"
              {| global := Some false; registerWorker := None |}
              (fresh_process [Greet; SendWelcome])) as [Hglobal _].
  exact (Hglobal eq_refl).
Defined.

Lemma load_file_class host jobsDir rg rw file module c C p :
  dynamic_import host (pathToFileURL host (join host jobsDir file)) = Returned module ->
  find_JobClass module = ExportClass c ->
  classes (world p) !! c = Some C ->
  let p' := (load_file host jobsDir rg rw file p).1 in
  loadedJobs p' !! name C = Some c
  ∧ (∃ C', classes (world p') !! c = Some C' ∧ same_but_path C C'
           ∧ _filePath C' = Some (join host jobsDir file))
  ∧ (rw = true -> jobRegistry (world p') !! name C = Some c)
  ∧ (rg = true -> globalThis p' !! name C = Some (GlobalClass c)).
Proof.
  intros Himport Hfind Hc. cbv zeta.
  rewrite (load_file_class_unfold _ _ _ _ _ _ _ _ _ Himport Hfind Hc).
  cbn [fst world loadedJobs globalThis imported].
  split; [apply lookup_insert_eq|]. split; [|split].
  - destruct rw; cbn [classes with_jobRegistry with_classes].
    + eexists. split; [apply write_filePath_at, write_filePath_at, Hc|].
      split; [repeat split | reflexivity].
    + eexists. split; [apply write_filePath_at, Hc|].
      split; [repeat split | reflexivity].
  - intros ->. apply lookup_insert_eq.
  - intros ->. apply lookup_insert_eq.
Qed.

(** X29.  When no earlier job file's import rejects with [undefined] or
    [null], the job class found in the last job file of the listing ends up
    loaded and [loadJobs] returns the map of loaded jobs: the class is in
    the map under its name, its [_filePath] is the path of the file in the
    jobs directory and the rest of the class is as it was; unless switched
    off by the options, it is registered with the worker and bound on
    [globalThis] under its name. *)
Theorem loadJobs_loads_class host jobsDir options files earlier file module c C p :
  readdir host jobsDir = Returned files ->
  List.filter is_job_file files = earlier ++ [file] ->
  (∀ f, f ∈ earlier ->
     dynamic_import host (pathToFileURL host (join host jobsDir f)) ≠ Thrown VUndefined
     ∧ dynamic_import host (pathToFileURL host (join host jobsDir f)) ≠ Thrown VNull) ->
  dynamic_import host (pathToFileURL host (join host jobsDir file)) = Returned module ->
  find_JobClass module = ExportClass c ->
  classes (world p) !! c = Some C ->
  let p' := (loadJobs host jobsDir options p).1 in
  (loadJobs host jobsDir options p).2 = Returned (loadedJobs p')
  ∧ loadedJobs p' !! name C = Some c
  ∧ (∃ C', classes (world p') !! c = Some C' ∧ same_but_path C C'
           ∧ _filePath C' = Some (join host jobsDir file))
  ∧ (registerWorker options ≠ Some false -> jobRegistry (world p') !! name C = Some c)
  ∧ (global options ≠ Some false -> globalThis p' !! name C = Some (GlobalClass c)).
Proof.
  intros Hdir Hfiles Hearlier Himport Hfind Hc. cbv zeta.
  apply rejects_nullish_false in Hearlier.
  unfold loadJobs. rewrite Hdir, Hfiles. unfold bind, gets.
  rewrite (load_files_app _ _ _ _ _ _ _ Hearlier).
  destruct (load_files_frame host jobsDir (default true (global options))
              (default true (registerWorker options)) earlier p)
    as (p1 & Hrun1 & _ & _ & _ & _ & Hcls & _).
  rewrite Hearlier in Hrun1. rewrite Hrun1. simpl. unfold bind.
  destruct (Hcls c C) as (C1 & Hc1 & Hsame1).
  { exists C. split; [exact Hc | repeat split]. }
  destruct (load_file_class host jobsDir (default true (global options))
              (default true (registerWorker options)) file module c C1 p1
              Himport Hfind Hc1) as (Hloaded & (C2 & Hc2 & Hsame2 & Hpath) & Hreg & Hglob).
  rewrite (load_file_class_unfold _ _ _ _ _ _ _ _ _ Himport Hfind Hc1) in *.
  cbn [fst snd] in *.
  assert (Hname : name C1 = name C) by (destruct Hsame1 as (_ & Hn & _); exact Hn).
  rewrite Hname in *.
  split; [reflexivity|]. split; [exact Hloaded|]. split; [|split].
  - exists C2. split; [exact Hc2|]. split; [|exact Hpath].
    eapply same_but_path_trans; eassumption.
  - intros Hopt. apply Hreg.
    destruct (registerWorker options) as [[|]|]; [reflexivity | congruence | reflexivity].
  - intros Hopt. apply Hglob.
    destruct (global options) as [[|]|]; [reflexivity | congruence | reflexivity].
Qed.

Lemma loadJobs_loads_class_witness :
  let p' := (loadJobs demo_host "/app/jobs" {| global := None; registerWorker := None |}
               (fresh_process [Greet; SendWelcome])).1 in
  loadedJobs p' !! "SendWelcome" = Some 1%nat
  ∧ jobRegistry (world p') !! "SendWelcome" = Some 1%nat
  ∧ globalThis p' !! "SendWelcome" = Some (GlobalClass 1).
Proof.
  cbv zeta.
  destruct (loadJobs_loads_class demo_host "/app/jobs"
              {| global := None; registerWorker := None |}
              ["README.md"; "broken.js"; "c.js"; "send-welcome.js"]
              ["broken.js"; "c.js"] "send-welcome.js"
              [("default", ExportClass 1)] 1 SendWelcome
              (fresh_process [Greet; SendWelcome])
              eq_refl eq_refl)
    as (_ & Hloaded & _ & Hregistry & Hglobal); try reflexivity.
  - intros f Hin. apply list_elem_of_In in Hin. simpl in Hin.
    destruct Hin as [<-|[<-|[]]]; split; intros H; vm_compute in H; discriminate H.
  - split; [exact Hloaded|]. split; [apply Hregistry | apply Hglobal]; discriminate.
Defined.

Lemma clear_global_lookup loaded k globals name :
  clear_global loaded k globals !! name
  = if decide (k = name) then cleared loaded globals name else globals !! name.
Proof.
  unfold clear_global, cleared. case_decide as Hk.
  - subst k. destruct (globals !! name) as [[g|v]|] eqn:Hg; try (rewrite Hg; reflexivity).
    destruct (loaded !! name) as [c|]; [|rewrite Hg; reflexivity].
    case_decide; [apply lookup_delete_eq | rewrite Hg; reflexivity].
  - destruct (globals !! k) as [[g|v]|]; try reflexivity.
    destruct (loaded !! k) as [c|]; [|reflexivity].
    case_decide; [apply lookup_delete_ne; exact Hk | reflexivity].
Qed.

Lemma foldr_clear_global_lookup loaded globals names name :
  foldr (clear_global loaded) globals names !! name
  = if decide (name ∈ names) then cleared loaded globals name else globals !! name.
Proof.
  induction names as [|k rest IH]; cbn [foldr].
  - rewrite decide_False by apply not_elem_of_nil. reflexivity.
  - rewrite clear_global_lookup. destruct (decide (k = name)) as [->|Hk].
    + rewrite (decide_True (P := name ∈ name :: rest)) by apply list_elem_of_here.
      unfold cleared at 1. rewrite IH.
      destruct (decide (name ∈ rest)) as [Hin|Hin]; [|reflexivity].
      unfold cleared. destruct (globals !! name) as [[g|v]|]; try reflexivity.
      destruct (loaded !! name) as [c|]; [|reflexivity].
      destruct (decide (g = c)) as [Hg|Hg]; [reflexivity|].
      rewrite decide_False by exact Hg. reflexivity.
    + rewrite IH. destruct (decide (name ∈ rest)) as [Hin|Hin].
      * rewrite decide_True by (apply list_elem_of_further; exact Hin). reflexivity.
      * rewrite decide_False; [reflexivity|].
        intros Hin'. apply elem_of_cons in Hin' as [->|Hin']; [apply Hk; reflexivity | auto].
Qed.

(** X30.  [clearJobs] empties the map of loaded jobs, so that [getJob]
    finds nothing; it removes from [globalThis] the names that still hold
    the class loaded under them and keeps every other binding, one
    rebound since the load too; the worker's registry is not touched. *)
Theorem clearJobs_effect p :
  let p' := (clearJobs p).1 in
  loadedJobs p' = ∅
  ∧ (∀ name, (getJob name p').2 = Returned None)
  ∧ (∀ name, globalThis p' !! name =
       match globalThis p !! name, loadedJobs p !! name with
       | Some (GlobalClass g), Some c =>
           if decide (g = c) then None else Some (GlobalClass g)
       | other, _ => other
       end)
  ∧ world p' = world p
  ∧ imported p' = imported p.
Proof.
  cbv zeta. unfold clearJobs, modify, getJob, gets. simpl.
  split; [reflexivity|]. split; [intros name; rewrite lookup_empty; reflexivity|].
  split; [|split; reflexivity].
  intros name. rewrite foldr_clear_global_lookup. fold (cleared (loadedJobs p) (globalThis p) name).
  case_decide as Hin; [reflexivity|].
  unfold cleared. destruct (loadedJobs p !! name) as [c|] eqn:Hc.
  - exfalso. apply Hin. apply list_elem_of_fmap. exists (name, c). split; [reflexivity|].
    apply elem_of_map_to_list. exact Hc.
  - destruct (globalThis p !! name) as [[g|v]|]; reflexivity.
Qed.

Lemma startWorkers_all_running_witness :
  let started := startWorkers ["default"; "mailers"; "default"]
                   {| concurrency := Some 2 |} (fresh_world [] 0) in
  ∃ k1 k2,
    started.2 = Returned [k1; k2; k1]
    ∧ workers started.1 !! "default" = Some k1
    ∧ workers started.1 !! "mailers" = Some k2.
Proof.
  cbv zeta.
  destruct (startWorkers_all_running ["default"; "mailers"; "default"]
              {| concurrency := Some 2 |} (fresh_world [] 0))
    as (ks & Hret & Hall & _).
  vm_compute in Hret. injection Hret as <-.
  apply Forall2_cons_1 in Hall as [H1 Hall].
  apply Forall2_cons_1 in Hall as [H2 _].
  eexists _, _. split; [reflexivity|]. split; [exact H1 | exact H2].
Defined.
